(** * transdoc: the document translation pipeline of [translate.py]

    A shallow embedding of [TranslationClient] and [DocxTranslator]
    ([src/translate.py]) and the properties of the pipeline: text extraction,
    redistribution of a translated string over the runs of a paragraph, the
    table pass, the retry loop of the client and the (un)packing of the
    archive around them.

    Python values are modelled as follows.
    - [str]: a list of Unicode code points ([N]); [None] is the [None] of
      [option].
    - an [xml.etree.ElementTree.Element]: the inductive [Element] with its
      tag, attributes, text, tail and children. An element object inside a
      tree is addressed by its [path] (the child indices from the root of the
      tree), and assigning to [.text] is [set_text] at that path, so that two
      references to the same object are two equal paths.
    - an exception: the [Raise] case of [result]. *)

From Stdlib Require Import ZArith NArith Ascii String.
From stdpp Require Import base tactics option list numbers strings gmap.

Open Scope nat_scope.
Set Warnings "-register-all".

(** ** Python strings *)

Definition char := N.
Definition str := list char.

(** The code points of an ASCII literal. *)
Definition lit (s : string) : str :=
  (λ a, N_of_ascii a) <$> list_ascii_of_string s.

(** [str.isspace] on one code point: the table of CPython's
    [_PyUnicode_IsWhitespace]. *)
Definition isspace (c : char) : bool :=
  ((9 <=? c) && (c <=? 13) || (28 <=? c) && (c <=? 32) ||
   (c =? 133) || (c =? 160) || (c =? 5760) ||
   (8192 <=? c) && (c <=? 8202) ||
   (c =? 8232) || (c =? 8233) || (c =? 8239) || (c =? 8287) ||
   (c =? 12288))%N.

Fixpoint lstrip (s : str) : str :=
  match s with
  | [] => []
  | c :: s' => if isspace c then lstrip s' else s
  end.

Definition rstrip (s : str) : str := reverse (lstrip (reverse s)).

(** [s.strip()] *)
Definition strip (s : str) : str := rstrip (lstrip s).

(** [s.split()]: the maximal runs of non-whitespace characters. [w] is the
    word read so far. *)
Fixpoint split_from (w : str) (s : str) : list str :=
  match s with
  | [] => match w with [] => [] | _ => [w] end
  | c :: s' =>
      if isspace c
      then match w with [] => split_from [] s' | _ => w :: split_from [] s' end
      else split_from (w ++ [c]) s'
  end.

Definition split (s : str) : list str := split_from [] s.

(** [sep.join(l)] *)
Fixpoint join (sep : str) (l : list str) : str :=
  match l with
  | [] => []
  | [x] => x
  | x :: l' => x ++ sep ++ join sep l'
  end.

(** [l[start:stop]] for indices that are not negative; [stop = None] is
    [l[start:]]. *)
Definition slice {A} (start : nat) (stop : option nat) (l : list A) : list A :=
  match stop with
  | None => drop start l
  | Some e => take (e - start) (drop start l)
  end.

(** Truth value of a string: [if s:]. *)
Definition truthy (s : str) : bool :=
  match s with [] => false | _ => true end.

Definition space : str := lit " ".

(** ** Exceptions *)

Inductive exn := AttributeError | BadZipFile | ParseError | OSError.

Inductive result (A : Type) :=
  | Ok (a : A)
  | Raise (e : exn).
Arguments Ok {A} a.
Arguments Raise {A} e.

(** ** Element trees *)

Inductive Element : Type :=
  mkElement (tag : string) (attrib : list (string * str))
            (text : option str) (tail : option str)
            (children : list Element).

Definition tag (e : Element) : string :=
  match e with mkElement t _ _ _ _ => t end.
Definition attrib (e : Element) : list (string * str) :=
  match e with mkElement _ a _ _ _ => a end.
Definition text (e : Element) : option str :=
  match e with mkElement _ _ x _ _ => x end.
Definition tail (e : Element) : option str :=
  match e with mkElement _ _ _ x _ => x end.
Definition children (e : Element) : list Element :=
  match e with mkElement _ _ _ _ cs => cs end.

(** The address of an element object inside a tree: the child indices that
    lead to it. *)
Abbreviation path := (list nat).

(** The element found at [p] in the current tree. *)
Fixpoint get (e : Element) (p : path) : option Element :=
  match p with
  | [] => Some e
  | i :: p' => children e !! i ≫= λ c, get c p'
  end.

(** In-place change of the element at [p]. *)
Fixpoint modify (f : Element → Element) (p : path) (e : Element) : Element :=
  match p with
  | [] => f e
  | i :: p' =>
      mkElement (tag e) (attrib e) (text e) (tail e)
                (alter (modify f p') i (children e))
  end.

Definition with_text (v : option str) (e : Element) : Element :=
  mkElement (tag e) (attrib e) v (tail e) (children e).

(** [x.text = v] for the element [x] at [p]. *)
Definition set_text (e : Element) (p : path) (v : option str) : Element :=
  modify (with_text v) p e.

Definition flat_imap {A B} (f : nat → A → list B) : nat → list A → list B :=
  fix go i l :=
    match l with
    | [] => []
    | x :: l' => f i x ++ go (S i) l'
    end.

Definition under {A} (i : nat) (x : path * A) : path * A := (i :: x.1, x.2).

(** [element.iter()]: the element and all its descendants in document
    order, each with its address. *)
Fixpoint iter (e : Element) : list (path * Element) :=
  match e with
  | mkElement _ _ _ _ cs =>
      ([], e) :: flat_imap (λ i c, under i <$> iter c) 0 cs
  end.

(** [element.iter(t)] *)
Definition iter_tag (t : string) (e : Element) : list (path * Element) :=
  filter (λ x, tag x.2 = t) (iter e).

(** [element.findall('.//' + t)]: the proper descendants with tag [t], in
    document order. *)
Definition findall (t : string) (e : Element) : list (path * Element) :=
  filter (λ x, tag x.2 = t) (drop 1 (iter e)).

(** ** The namespaces of [DocxTranslator.ns] *)

Definition ns_w : string :=
  "http://schemas.openxmlformats.org/wordprocessingml/2006/main".
Definition ns_m : string :=
  "http://schemas.openxmlformats.org/officeDocument/2006/math".

Definition qname (ns local : string) : string :=
  ("{" ++ ns ++ "}" ++ local)%string.

Definition w_t : string := Eval cbv in qname ns_w "t".
Definition w_p : string := Eval cbv in qname ns_w "p".
Definition w_tbl : string := Eval cbv in qname ns_w "tbl".
Definition w_tr : string := Eval cbv in qname ns_w "tr".
Definition w_tc : string := Eval cbv in qname ns_w "tc".

(** ** DocxTranslator: extraction and redistribution *)

(** [is_math_element]: some element of [element.iter()] has a tag that
    starts with the math namespace. *)
Definition is_math_element (element : Element) : bool :=
  existsb (λ child, String.prefix (qname ns_m "") (tag child.2)) (iter element).

Definition text_truthy (x : option str) : bool :=
  match x with Some s => truthy s | None => false end.

(** [extract_text] *)
Definition extract_text (element : Element) : str :=
  if is_math_element element then []
  else
    let text := omap (λ t, if text_truthy (text t.2) then text t.2 else None)
                     (iter_tag w_t element) in
    strip (concat text).

Definition enumerate {A} (l : list A) : list (nat * A) := imap pair l.

(** [update_text]. [translated_text] is the value returned by the client,
    which may be [None]; [None.strip()] raises. *)
Definition update_text (element : Element) (translated_text : option str)
  : result Element :=
  match translated_text with
  | None => Raise AttributeError
  | Some translated =>
      if negb (truthy (strip translated)) then Ok element
      else
        let text_elements := iter_tag w_t element in
        match text_elements with
        | [] => Ok element
        | [t0] => Ok (set_text element t0.1 (Some translated))
        | _ =>
            let words := split translated in
            let total_words := length words in
            let words_per_element :=
              Nat.max 1 (total_words / length text_elements) in
            Ok (foldl
                  (λ el it,
                     let i := it.1 in
                     let t_element := it.2 in
                     let start_idx := i * words_per_element in
                     let end_idx :=
                       if i <? length text_elements - 1
                       then Some (start_idx + words_per_element) else None in
                     if start_idx <? length words
                     then set_text el t_element.1
                            (Some (join space (slice start_idx end_idx words)))
                     else set_text el t_element.1 (Some []))
                  element (enumerate text_elements))
        end
  end.

(** The text of the text leaves of an element, in document order. *)
Definition leaf_texts (e : Element) : list (option str) :=
  (λ x, text x.2) <$> iter_tag w_t e.

Definition leaf (s : str) : Element := mkElement w_t [] (Some s) None [].
Definition run (s : str) : Element :=
  mkElement (qname ns_w "r") [] None None [leaf s].
Definition para (cs : list Element) : Element := mkElement w_p [] None None cs.

Definition body (cs : list Element) : Element :=
  mkElement (qname ns_w "body") [] None None cs.
Definition document (cs : list Element) : Element :=
  mkElement (qname ns_w "document") [] None None [body cs].
Definition tc (cs : list Element) : Element := mkElement w_tc [] None None cs.
Definition tr (cs : list Element) : Element := mkElement w_tr [] None None cs.
Definition tbl (cs : list Element) : Element := mkElement w_tbl [] None None cs.

(** An inline formula, [m:oMath] with one [m:r]/[m:t] run. *)
Definition oMath (s : str) : Element :=
  mkElement (qname ns_m "oMath") [] None None
    [mkElement (qname ns_m "r") [] None None
       [mkElement (qname ns_m "t") [] (Some s) None []]].

(** A document whose body is a table of one cell with one paragraph. *)
Definition table_document : Element :=
  document [tbl [tr [tc [para [run (lit "Hello")]]]]].

(** A document whose body is a table of one cell with a paragraph of text
    and a paragraph that holds a run of text and a formula. *)
Definition formula_document : Element :=
  document [tbl [tr [tc [para [run (lit "Hello")];
                         para [run (lit "where"); oMath (lit "x")]]]]].

(** A cell with the paragraphs ["Hello "] and ["World"]. *)
Definition sample_cell : Element :=
  tc [para [run (lit "Hello ")]; para [run (lit "World")]].

(** A table whose only cell holds a table of one cell. *)
Definition nested_table : Element :=
  tbl [tr [tc [tbl [tr [tc [para [run (lit "Hello")]]]]]]].

(** ** TranslationClient *)

(** [BaseTranslator.translate_text] is the external backend. The outcome of
    the call number [n] (counted over the whole run) on a text and a target
    language is the returned string, or [None] when the call raises an
    [Exception]. *)
Definition BaseTranslator := nat → str → str → option str.

Record TranslationClient := mkClient {
  translator : BaseTranslator;
  max_retries : Z
}.

Definition default_client (t : BaseTranslator) : TranslationClient :=
  mkClient t 3.

Definition error_sentinel : str := lit "error".

(** The loop of [TranslationClient.translate]: [fuel] iterations of
    [range(max_retries)] remain, [attempt] is the loop variable and [n] the
    number of backend calls made so far. Falling out of the loop returns
    [None]. *)
Fixpoint translate_loop (c : TranslationClient) (fuel : nat) (attempt : Z)
    (text lang : str) (n : nat) : option str * nat :=
  match fuel with
  | 0 => (None, n)
  | S fuel' =>
      match translator c n text lang with
      | Some r => (Some r, S n)
      | None =>
          if (attempt + 1 =? max_retries c)%Z
          then (Some error_sentinel, S n)
          else translate_loop c fuel' (attempt + 1) text lang (S n)
      end
  end.

Definition translate (c : TranslationClient) (text lang : str) (n : nat)
  : option str * nat :=
  translate_loop c (Z.to_nat (max_retries c)) 0 text lang n.

(** A backend that is down: every call raises. *)
Definition backend_down : BaseTranslator := λ _ _ _, None.

(** A backend that answers every text with the same text between angle
    brackets, to tell translated text from source text. *)
Definition backend_echo : BaseTranslator :=
  λ _ text _, Some (lit "<" ++ text ++ lit ">").

(** ** The record of a run: backend calls and submitted units *)

(** Where a translation unit comes from: the paragraph visited by the
    paragraph pass, or the cell visited by [process_table] (table, row
    relative to the table, cell relative to the row). *)
Inductive origin :=
  | FromParagraph (p : path)
  | FromCell (table row cell : path).

Record request := mkRequest {
  req_origin : origin;
  req_text : str;
  req_lang : str
}.

Record Session := mkSession {
  calls : nat;            (* calls of [translate_text] so far *)
  log : list request      (* calls of [translate] so far, oldest first *)
}.

Definition new_session : Session := mkSession 0 [].

Definition submit (c : TranslationClient) (o : origin) (text lang : str)
    (s : Session) : option str * Session :=
  let r := translate c text lang (calls s) in
  (r.1, mkSession r.2 (log s ++ [mkRequest o text lang])).

(** ** DocxTranslator: the paragraph pass of [translate_document] *)

Definition put (x : Element) (p : path) (root : Element) : Element :=
  modify (λ _, x) p root.

(** One iteration of [for element in root.findall('.//w:p', self.ns)]. *)
Definition paragraph_step (c : TranslationClient) (lang : str)
    (acc : result (Element * Session)) (p : path)
  : result (Element * Session) :=
  match acc with
  | Raise e => Raise e
  | Ok (root, s) =>
      match get root p with
      | None => Ok (root, s)
      | Some element =>
          let text := extract_text element in
          if truthy (strip text) then
            let r := submit c (FromParagraph p) text lang s in
            match update_text element r.1 with
            | Ok element' => Ok (put element' p root, r.2)
            | Raise e => Raise e
            end
          else Ok (root, s)
      end
  end.

Definition paragraph_pass (c : TranslationClient) (lang : str)
    (root : Element) (s : Session) : result (Element * Session) :=
  foldl (paragraph_step c lang) (Ok (root, s)) (findall w_p root).*1.

(** ** DocxTranslator.process_table *)

(** [for t in para.iter(w_t): t.text = ''] for the paragraph at [p] of
    [cell]. *)
Definition clear_texts (p : path) (cell : Element) : Element :=
  match get cell p with
  | None => cell
  | Some para =>
      foldl (λ c t, set_text c (p ++ t.1) (Some [])) cell (iter_tag w_t para)
  end.

(** The text gathered from the paragraphs of a cell. *)
Definition cell_text (cell : Element) : str :=
  strip (foldl (λ acc para,
                  let text := extract_text para.2 in
                  if truthy (strip text) then acc ++ text ++ space else acc)
               [] (findall w_p cell)).

Definition is_error (s : str) : bool := bool_decide (s = error_sentinel).

(** The body of the loop over the cells of a row. The [try] around it
    catches nothing in this model: [translate] does not raise and
    [update_text] is called on a string only. *)
Definition process_cell (c : TranslationClient) (lang : str) (o : origin)
    (cell : Element) (s : Session) : Element * Session :=
  let cell_text := cell_text cell in
  if truthy cell_text then
    let r := submit c o cell_text lang s in
    match r.1 with
    | Some translated =>
        if truthy translated && negb (is_error translated) then
          match findall w_p cell with
          | [] => (cell, r.2)
          | p0 :: rest =>
              match update_text p0.2 (Some translated) with
              | Ok p0' =>
                  (foldl (λ cl para, clear_texts para.1 cl)
                         (put p0' p0.1 cell) rest, r.2)
              | Raise _ => (cell, r.2)
              end
          end
        else (cell, r.2)
    | None => (cell, r.2)
    end
  else (cell, s).

(** One visit of a cell: [row] and [cell] are the addresses of the row in
    the table and of the cell in the row. *)
Definition visit_cell (c : TranslationClient) (lang : str)
    (tbl row cell : path) (acc : Element * Session) : Element * Session :=
  match get acc.1 (row ++ cell) with
  | None => acc
  | Some cur =>
      let r := process_cell c lang (FromCell tbl row cell) cur acc.2 in
      (put r.1 (row ++ cell) acc.1, r.2)
  end.

(** The cells visited by [process_table], in order: for every row of
    [table.findall('.//w:tr')], every cell of [row.findall('.//w:tc')]. *)
Definition cell_visits (table : Element) : list (path * path) :=
  row ← findall w_tr table;
  (λ cell, (row.1, cell.1)) <$> findall w_tc row.2.

Definition process_table (c : TranslationClient) (lang : str)
    (tbl : path) (table : Element) (s : Session) : Element * Session :=
  foldl (λ acc v, visit_cell c lang tbl v.1 v.2 acc) (table, s)
        (cell_visits table).

(** ** DocxTranslator: the table pass of [translate_document] *)

Definition table_step (c : TranslationClient) (lang : str)
    (acc : Element * Session) (tbl : path) : Element * Session :=
  match get acc.1 tbl with
  | None => acc
  | Some table =>
      let r := process_table c lang tbl table acc.2 in
      (put r.1 tbl acc.1, r.2)
  end.

Definition table_pass (c : TranslationClient) (lang : str)
    (root : Element) (s : Session) : Element * Session :=
  foldl (table_step c lang) (root, s) (findall w_tbl root).*1.

(** Lines 241-250: both passes over the parsed tree. *)
Definition translate_tree (c : TranslationClient) (lang : str)
    (root : Element) (s : Session) : result (Element * Session) :=
  match paragraph_pass c lang root s with
  | Raise e => Raise e
  | Ok (root1, s1) => Ok (table_pass c lang root1 s1)
  end.

(** ** Archives and the scratch directory *)

Definition bytes := list Byte.byte.

(** An entry of a zip archive: a file with its content, or a directory
    entry (a name that ends in a slash and has no content). *)
Inductive member :=
  | File (data : bytes)
  | Directory.

Definition is_file (m : member) : bool :=
  match m with File _ => true | Directory => false end.

(** The entries of an archive in archive order. Names are taken to be
    normalised relative paths, which [extractall] and [os.path.relpath] map
    to themselves. *)
Definition ZipFile := list (string * member).

(** A directory tree: the files below it by relative path, and the
    directories below it. *)
Record Tree := mkTree {
  files : gmap string bytes;
  dirs : gset string
}.

Definition empty_tree : Tree := mkTree ∅ ∅.

(** The file system as far as [translate_document] reads and writes it:
    the directory [temp_docx] ([None] when it does not exist) and the
    archives stored outside it. *)
Record FileSystem := mkFS {
  temp_docx : option Tree;
  archives : gmap string ZipFile
}.

(** [zip_ref.extractall(temp_dir)]: a file entry is written (a later entry
    of the same name overwrites an earlier one), a directory entry makes a
    directory. *)
Definition extract_member (t : Tree) (m : string * member) : Tree :=
  match m.2 with
  | File data => mkTree (<[m.1 := data]> (files t)) (dirs t)
  | Directory => mkTree (files t) ({[m.1]} ∪ dirs t)
  end.

Definition extractall (z : ZipFile) (t : Tree) : Tree :=
  foldl extract_member t z.

(** The [os.walk] loop of lines 254-259: one entry for every file found
    below [temp_dir]; the sub-folders themselves are not written. *)
Definition pack (t : Tree) : ZipFile :=
  (λ f, (f.1, File f.2)) <$> map_to_list (files t).

Definition document_xml : string := "word/document.xml".

(** [os.path.exists(temp_dir)], [shutil.rmtree(temp_dir)] and
    [os.makedirs(temp_dir)]; the operating system is taken to carry them
    out. *)
Definition exists_temp (fs : FileSystem) : bool :=
  bool_decide (is_Some (temp_docx fs)).
Definition rmtree (fs : FileSystem) : FileSystem := mkFS None (archives fs).
Definition makedirs (fs : FileSystem) : FileSystem :=
  mkFS (Some empty_tree) (archives fs).

(** Failures of the operating system that the run may meet after the
    translation: writing [document.xml] back and writing the output
    archive. *)
Record Faults := mkFaults {
  serialize_fails : bool;
  repack_fails : bool
}.

Definition no_faults : Faults := mkFaults false false.

Section Document.

(** [ET.parse] on the bytes of a file ([None]: it raises [ParseError]) and
    [tree.write(path, encoding='UTF-8', xml_declaration=True)]. *)
Variable parse : bytes → option Element.
Variable serialize : Element → bytes.

(** The [try] block of [translate_document], lines 234-259, started with
    an empty [temp_docx]. *)
Definition translate_document_body (c : TranslationClient) (ft : Faults)
    (input_file output_file : string) (lang : str)
    (fs : FileSystem) (s : Session) : result unit * FileSystem :=
  match archives fs !! input_file with
  | None => (Raise BadZipFile, fs)
  | Some zip_ref =>
      let t := extractall zip_ref empty_tree in
      let fs1 := mkFS (Some t) (archives fs) in
      match files t !! document_xml with
      | None => (Raise OSError, fs1)
      | Some doc =>
          match parse doc with
          | None => (Raise ParseError, fs1)
          | Some root =>
              match translate_tree c lang root s with
              | Raise e => (Raise e, fs1)
              | Ok (root', _) =>
                  if serialize_fails ft then (Raise OSError, fs1)
                  else
                    let t' := mkTree (<[document_xml := serialize root']>
                                        (files t)) (dirs t) in
                    let fs2 := mkFS (Some t') (archives fs) in
                    if repack_fails ft then (Raise OSError, fs2)
                    else (Ok (),
                          mkFS (Some t')
                               (<[output_file := pack t']> (archives fs)))
              end
          end
      end
  end.

(** [translate_document]: lines 228-231, the [try] block and the
    [finally] clause. An exception of the block is re-raised after the
    clause has run. *)
Definition translate_document (c : TranslationClient) (ft : Faults)
    (input_file output_file : string) (lang : str)
    (fs : FileSystem) (s : Session) : result unit * FileSystem :=
  let fs0 := makedirs (if exists_temp fs then rmtree fs else fs) in
  let r := translate_document_body c ft input_file output_file lang fs0 s in
  (r.1, if exists_temp r.2 then rmtree r.2 else r.2).

End Document.

(** ** Vocabulary of the statements *)

(** The words given to leaf [i] of [n] by the redistribution of [words]
    with [k] words per leaf. *)
Definition share (words : list str) (n k i : nat) : list str :=
  if i <? n - 1 then slice (i * k) (Some ((i + 1) * k)) words
  else slice (i * k) None words.

(** A word: not empty and free of whitespace. *)
Definition word (w : str) : Prop :=
  w ≠ [] ∧ Forall (λ c, isspace c = false) w.

(** The first character is not whitespace. *)
Definition head_ok (w : str) : Prop :=
  match w with c :: _ => isspace c = false | [] => False end.

(** Not empty, and no whitespace at either end. *)
Definition trimmed (w : str) : Prop := head_ok w ∧ head_ok (reverse w).

(** The addresses and tags of the elements of a tree: what no assignment
    to [.text] changes. *)
Definition skel (e : Element) : list (path * string) :=
  (λ x, (x.1, tag x.2)) <$> iter e.

(** A sequence of assignments [x.text = v]. *)
Definition assign (e : Element) (l : list (path * option str)) : Element :=
  foldl (λ el it, set_text el it.1 it.2) e l.

(** The assignments made by the loop of lines 212-214 over the paragraphs
    [rest]: the empty string for every text leaf of each of them. *)
Definition clearings (rest : list (path * Element))
  : list (path * option str) :=
  para ← rest;
  (λ a, (para.1 ++ a, Some [])) <$> (iter_tag w_t para.2).*1.

(** The text found at an address, when there is an element there. *)
Definition text_at (e : Element) (p : path) : option (option str) :=
  text <$> get e p.

(** [p] lies inside a table cell of [root]: a proper ancestor is a
    [w:tc]. *)
Definition inside_cell (root : Element) (p : path) : bool :=
  existsb (λ n, match get root (take n p) with
                | Some a => bool_decide (tag a = w_tc)
                | None => false
                end)
          (seq 0 (length p)).

Definition names (z : ZipFile) : list string := z.*1.

Definition file_names (z : ZipFile) : list string :=
  (filter (λ m, is_file m.2 = true) z).*1.

(** The content of the last file entry called [n]. *)
Definition content (z : ZipFile) (n : string) : option bytes :=
  files (extractall z empty_tree) !! n.

(** ** Sample archives *)

(** A package with the document part and a directory entry, as written by
    tools that zip a folder. *)
Definition sample_package : ZipFile :=
  [(document_xml, File []); ("customXml/", Directory)].

Definition sample_fs : FileSystem :=
  mkFS None {["in.docx" := sample_package]}.

(** A parser that reads every file as the empty document, and a writer
    that writes no bytes. *)
Definition parse_empty : bytes → option Element := λ _, Some (document []).
Definition serialize_empty : Element → bytes := λ _, [].

(** ** What the translation leaves alone *)

(** The parts of an element that no assignment to [.text] touches: its tag,
    attributes, tail and number of children. *)
Definition rigid (x : Element)
  : string * list (string * str) * option str * nat :=
  (tag x, attrib x, tail x, length (children x)).

(** [e'] has the elements of [e] at the same addresses, with the same tag,
    attributes, tail and number of children, and with the same text except
    at [w:t] elements. *)
Definition frame (e e' : Element) : Prop :=
  ∀ q, rigid <$> get e' q = rigid <$> get e q ∧
       (tag <$> get e q ≠ Some w_t → text <$> get e' q = text <$> get e q).

(** Between two states of a run at most [m] backend calls were made for
    each unit submitted. *)
Definition within_budget (m : nat) (s s' : Session) : Prop :=
  length (log s) ≤ length (log s') ∧
  calls s ≤ calls s' ≤ calls s + m * (length (log s') - length (log s)).

(** * config.py *)

(** ** JSON values and the dictionaries of Python *)

(** What [json.load] returns. Numbers are integers here; a dictionary is
    the list of its items in insertion order, with distinct keys. *)
Inductive Json : Type :=
  | JNull
  | JBool (b : bool)
  | JInt (n : Z)
  | JStr (s : str)
  | JList (l : list Json)
  | JDict (d : list (str * Json)).

(** The outcome of an expression that may raise. *)
Inductive py (A : Type) : Type :=
  | Done (a : A)
  | KeyError (key : str)
  | TypeError
  | NoAttribute.    (* AttributeError *)
Arguments Done {A} a.
Arguments KeyError {A} key.
Arguments TypeError {A}.
Arguments NoAttribute {A}.

Definition py_bind {A B} (x : py A) (f : A → py B) : py B :=
  match x with
  | Done a => f a
  | KeyError k => KeyError k
  | TypeError => TypeError
  | NoAttribute => NoAttribute
  end.

Notation "x ←' e1 ; e2" := (py_bind e1 (λ x, e2))
  (at level 20, e1 at level 100, e2 at level 200, right associativity).

Fixpoint dict_get (k : str) (d : list (str * Json)) : option Json :=
  match d with
  | [] => None
  | (k', v) :: d' => if decide (k' = k) then Some v else dict_get k d'
  end.

(** [d[k] = v]: the value is replaced where the key is, a new key goes to
    the end. *)
Fixpoint dict_set (k : str) (v : Json) (d : list (str * Json))
  : list (str * Json) :=
  match d with
  | [] => [(k, v)]
  | (k', v') :: d' =>
      if decide (k' = k) then (k, v) :: d' else (k', v') :: dict_set k v d'
  end.

(** [x[k]] with a string [k]. *)
Definition getitem (x : Json) (k : str) : py Json :=
  match x with
  | JDict d => match dict_get k d with Some v => Done v | None => KeyError k end
  | _ => TypeError
  end.

(** [x[k] = v] with a string [k]. *)
Definition setitem (x : Json) (k : str) (v : Json) : py Json :=
  match x with
  | JDict d => Done (JDict (dict_set k v d))
  | _ => TypeError
  end.

(** [x.get(k, default)] *)
Definition get_method (x : Json) (k : str) (default : Json) : py Json :=
  match x with
  | JDict d => Done (match dict_get k d with Some v => v | None => default end)
  | _ => NoAttribute
  end.

(** [x[k1][k2] = v]: the inner dictionary is changed in place. *)
Definition setitem2 (x : Json) (k1 k2 : str) (v : Json) : py Json :=
  inner ←' getitem x k1;
  inner' ←' setitem inner k2 v;
  setitem x k1 inner'.

(** Truth value: [if x:]. *)
Definition json_truthy (x : Json) : bool :=
  match x with
  | JNull => false
  | JBool b => b
  | JInt n => negb (n =? 0)%Z
  | JStr s => truthy s
  | JList l => match l with [] => false | _ => true end
  | JDict d => match d with [] => false | _ => true end
  end.

(** ** Constants *)

Definition OPENAI_DEFAULT_BASE_URL : str := lit "https://api.openai.com".
Definition OPENAI_DEFAULT_MODEL : str := lit "gpt-4".
Definition AZURE_OPENAI_DEFAULT_API_VERSION : str := lit "2024-02-01".
Definition AZURE_MODELS : list (str * Json) :=
  [(lit "gpt-4o", JStr (lit "gpt-4o"));
   (lit "gpt-4o-mini", JStr (lit "gpt-4o-mini"))].
Definition AZURE_OPENAI_DEFAULT_MODEL : str := lit "gpt-4o".

Module OpenAIConfig.
Record t := mk { api_key : Json; base_url : Json; model : Json }.
End OpenAIConfig.

Module AzureOpenAIConfig.
Record t := mk {
  endpoint : Json; api_key : Json; api_version : Json; model : Json
}.
End AzureOpenAIConfig.

(** ** The configuration file and the environment *)

(** [translator_config.json]: absent, present but not readable as JSON, or
    holding a JSON value. *)
Inductive ConfigFile :=
  | NoFile
  | Unreadable
  | Stored (v : Json).

Definition default_config : Json :=
  JDict [(lit "openai",
          JDict [(lit "api_key", JStr []);
                 (lit "base_url", JStr OPENAI_DEFAULT_BASE_URL);
                 (lit "model", JStr OPENAI_DEFAULT_MODEL)]);
         (lit "azure_openai",
          JDict [(lit "endpoint", JStr []);
                 (lit "api_key", JStr []);
                 (lit "api_version", JStr AZURE_OPENAI_DEFAULT_API_VERSION);
                 (lit "model", JStr AZURE_OPENAI_DEFAULT_MODEL)])].

(** [load_config]: an exception while reading is printed and the defaults
    are returned. *)
Definition load_config (f : ConfigFile) : Json :=
  match f with
  | Stored v => v
  | NoFile | Unreadable => default_config
  end.

(** [save_config]. [failure] is [None] when the file is written, and
    [Some remains] when writing raises and leaves the file as [remains]; the
    exception is printed, not raised. *)
Definition save_config (failure : option ConfigFile) (config : Json)
    (f : ConfigFile) : ConfigFile :=
  match failure with
  | None => Stored config
  | Some remains => remains
  end.

(** [os.getenv(name, default)] *)
Definition getenv (env : gmap string str) (name : string) (default : Json)
  : Json :=
  match env !! name with
  | Some v => JStr v
  | None => default
  end.

(** [get_openai_config]: the arguments of [os.getenv] are evaluated before
    the call. *)
Definition get_openai_config (f : ConfigFile) (env : gmap string str)
  : py OpenAIConfig.t :=
  let config := load_config f in
  a ←' (s ←' getitem config (lit "openai"); getitem s (lit "api_key"));
  let api_key := getenv env "OPENAI_API_KEY" a in
  b ←' (s ←' getitem config (lit "openai"); getitem s (lit "base_url"));
  let base_url := getenv env "OPENAI_BASE_URL" b in
  model ←' (s ←' getitem config (lit "openai"); getitem s (lit "model"));
  Done (OpenAIConfig.mk api_key base_url model).

Definition get_azure_openai_config (f : ConfigFile) (env : gmap string str)
  : py AzureOpenAIConfig.t :=
  let config := load_config f in
  e ←' (s ←' getitem config (lit "azure_openai");
        getitem s (lit "endpoint"));
  let endpoint := getenv env "AZURE_OPENAI_ENDPOINT" e in
  a ←' (s ←' getitem config (lit "azure_openai");
        getitem s (lit "api_key"));
  let api_key := getenv env "AZURE_OPENAI_API_KEY" a in
  v ←' (s ←' getitem config (lit "azure_openai");
        getitem s (lit "api_version"));
  m ←' (s ←' getitem config (lit "azure_openai");
        getitem s (lit "model"));
  Done (AzureOpenAIConfig.mk endpoint api_key v m).

(** [if x is not None: config[section][key] = x] *)
Definition set_if_given (section key : str) (x : option str) (config : Json)
  : py Json :=
  match x with
  | Some v => setitem2 config section key (JStr v)
  | None => Done config
  end.

(** [update_config]. The file is written only when no assignment raised. *)
Definition update_config (service : str)
    (api_key endpoint base_url model : option str)
    (failure : option ConfigFile) (f : ConfigFile) : py ConfigFile :=
  let config := load_config f in
  config' ←'
    (if decide (service = lit "openai") then
       c1 ←' set_if_given (lit "openai") (lit "api_key") api_key config;
       c2 ←' set_if_given (lit "openai") (lit "base_url") base_url c1;
       set_if_given (lit "openai") (lit "model") model c2
     else if decide (service = lit "azure_openai") then
       c1 ←' set_if_given (lit "azure_openai") (lit "api_key") api_key config;
       c2 ←' set_if_given (lit "azure_openai") (lit "endpoint") endpoint c1;
       set_if_given (lit "azure_openai") (lit "model") model c2
     else Done config);
  Done (save_config failure config' f).

(** [x[k1][k2]] *)
Definition getitem2 (x : Json) (k1 k2 : str) : py Json :=
  s ←' getitem x k1; getitem s k2.

(** The value given, or the one that was there. *)
Definition given (x : option str) (old : Json) : Json :=
  match x with Some v => JStr v | None => old end.

(** * app.py *)

(** [s.startswith(prefix)] *)
Definition startswith (prefix s : str) : bool :=
  bool_decide (take (length prefix) s = prefix).

(** The backend object a client is built around: [OpenAITranslator(config)]
    or [AzureOpenAITranslator(config)]. *)
Inductive Service :=
  | OpenAIService (config : OpenAIConfig.t)
  | AzureService (config : AzureOpenAIConfig.t).

Section App.

(** The behaviour of the backend reached with a configuration. *)
Variable connect : Service → BaseTranslator.

(** [get_translator]; [Done None] is the [return None] after [st.error]
    and at the end. *)
Definition get_translator (f : ConfigFile) (service_type : str)
  : py (option TranslationClient) :=
  let config := load_config f in
  if startswith (lit "openai") service_type then
    openai_config ←' get_method config (lit "openai") (JDict []);
    k ←' get_method openai_config (lit "api_key") JNull;
    if negb (json_truthy k) then Done None
    else
      api_key ←' getitem openai_config (lit "api_key");
      base_url ←' get_method openai_config (lit "base_url")
                             (JStr OPENAI_DEFAULT_BASE_URL);
      model ←' get_method openai_config (lit "model")
                          (JStr OPENAI_DEFAULT_MODEL);
      Done (Some (default_client
                    (connect (OpenAIService
                                (OpenAIConfig.mk api_key base_url model)))))
  else if startswith (lit "azure") service_type then
    azure_config ←' get_method config (lit "azure_openai") (JDict []);
    k ←' get_method azure_config (lit "api_key") JNull;
    missing ←' (if negb (json_truthy k) then Done true
                else e ←' get_method azure_config (lit "endpoint") JNull;
                     Done (negb (json_truthy e)));
    if missing : bool then Done None
    else
      api_key ←' getitem azure_config (lit "api_key");
      endpoint ←' getitem azure_config (lit "endpoint");
      api_version ←' get_method azure_config (lit "api_version")
                                (JStr (lit "2023-05-15"));
      model ←' get_method azure_config (lit "model")
                          (JStr AZURE_OPENAI_DEFAULT_MODEL);
      Done (Some (default_client
                    (connect (AzureService
                                (AzureOpenAIConfig.mk endpoint api_key
                                   api_version model)))))
  else Done None.

End App.

(** The branch of [main] behind the button that saves the OpenAI settings
    (lines 184-194), on the values of the three input fields. *)
Definition main_save_openai (api_key base_url model : str)
    (failure : option ConfigFile) (f : ConfigFile) : py ConfigFile :=
  let config := load_config f in
  if negb (truthy api_key) then Done f
  else
    config' ←' setitem config (lit "openai")
                 (JDict [(lit "api_key", JStr api_key);
                         (lit "base_url", JStr base_url);
                         (lit "model", JStr model)]);
    Done (save_config failure config' f).

(** The branch of [main] behind the button that saves the Azure OpenAI
    settings (lines 206-216). *)
Definition main_save_azure (api_key endpoint model : str)
    (failure : option ConfigFile) (f : ConfigFile) : py ConfigFile :=
  let config := load_config f in
  if negb (truthy api_key) || negb (truthy endpoint) then Done f
  else
    config' ←' setitem config (lit "azure_openai")
                 (JDict [(lit "api_key", JStr api_key);
                         (lit "endpoint", JStr endpoint);
                         (lit "model", JStr model)]);
    Done (save_config failure config' f).

(** * translate.py: translate_file *)

(** [p.rfind(c)] while scanning: [i] is the index of the head of [l] and
    [found] the last index seen so far ([-1] for none). *)
Fixpoint rfind_from (c : ascii) (i : nat) (l : list ascii) (found : Z) : Z :=
  match l with
  | [] => found
  | a :: l' =>
      rfind_from c (S i) l' (if Ascii.eqb a c then Z.of_nat i else found)
  end.

Definition rfind (c : ascii) (l : list ascii) : Z := rfind_from c 0 l (-1).

(** [os.path.splitext] of [posixpath]: the extension starts at the last
    dot of the last component, unless that component has only dots before
    it. *)
Definition splitext_list (l : list ascii) : list ascii * list ascii :=
  let sepIndex := rfind "/" l in
  let dotIndex := rfind "." l in
  if (sepIndex <? dotIndex)%Z then
    let name := take (Z.to_nat (dotIndex - (sepIndex + 1)))
                     (drop (Z.to_nat (sepIndex + 1)) l) in
    if existsb (λ a, negb (Ascii.eqb a ".")) name
    then (take (Z.to_nat dotIndex) l, drop (Z.to_nat dotIndex) l)
    else (l, [])
  else (l, []).

Definition splitext (p : string) : string * string :=
  let r := splitext_list (list_ascii_of_string p) in
  (string_of_list_ascii r.1, string_of_list_ascii r.2).

(** [f"{file_name}_translated{file_ext}"] *)
Definition default_output_file (input_file : string) : string :=
  let r := splitext input_file in
  (r.1 ++ "_translated" ++ r.2)%string.

(** [s.endswith(suffix)] *)
Definition endswith (suffix s : string) : bool :=
  let n := String.length s in
  let m := String.length suffix in
  (m <=? n) && String.eqb (String.substring (n - m) m s) suffix.

(** How a call of [translate_file] ends: it returns the output path, or
    raises [ValueError], or an exception of [get_azure_openai_config]
    ([KeyError] with its key, or [TypeError]), or one of
    [translate_document]. *)
Inductive FileOutcome :=
  | Returns (output_file : string)
  | ValueError
  | ConfigKeyError (key : str)
  | ConfigTypeError
  | DocumentRaises (e : exn).

Section TranslateFile.

Variable parse : bytes → option Element.
Variable serialize : Element → bytes.
Variable connect : Service → BaseTranslator.

Definition translate_file (input_file : string) (output_file : option string)
    (translator : option BaseTranslator) (lang : str)
    (ft : Faults) (cf : ConfigFile) (env : gmap string str)
    (fs : FileSystem) (s : Session) : FileOutcome * FileSystem :=
  let output_file :=
    match output_file with
    | Some o => if bool_decide (o = ""%string)
                then default_output_file input_file else o
    | None => default_output_file input_file
    end in
  if negb (endswith ".docx" input_file) then (ValueError, fs)
  else
    let translator :=
      match translator with
      | Some t => Done t
      | None => config ←' get_azure_openai_config cf env;
                Done (connect (AzureService config))
      end in
    match translator with
    | Done t =>
        let r := translate_document parse serialize (default_client t) ft
                   input_file output_file lang fs s in
        (match r.1 with
         | Ok _ => Returns output_file
         | Raise e => DocumentRaises e
         end, r.2)
    | KeyError k => (ConfigKeyError k, fs)
    | TypeError | NoAttribute => (ConfigTypeError, fs)
    end.

End TranslateFile.

(** * Properties *)

(** ** Strings *)

Section strings.
Implicit Types (s x y w : str) (c : char).

Lemma split_from_sep w x c y :
  isspace c = true →
  split_from w (x ++ c :: y) = split_from w x ++ split y.
Proof.
  intros Hc. revert w. induction x as [|d x IH]; intros w; simpl.
  - rewrite Hc. destruct w; reflexivity.
  - destruct (isspace d).
    + destruct w; rewrite IH; reflexivity.
    + apply IH.
Qed.

Lemma split_app_space x y : split (x ++ space ++ y) = split x ++ split y.
Proof. apply (split_from_sep [] x 32%N y). reflexivity. Qed.

Lemma split_lstrip s : split (lstrip s) = split s.
Proof.
  induction s as [|c s IH]; [done|]. unfold split in *. simpl.
  destruct (isspace c) eqn:Hc; [done|]. simpl. by rewrite Hc.
Qed.

Lemma lstrip_decompose s :
  ∃ sp, Forall (λ c, isspace c = true) sp ∧ s = sp ++ lstrip s.
Proof.
  induction s as [|c s (sp & Hsp & IH)]; [by exists []|]. simpl.
  destruct (isspace c) eqn:Hc; [|by exists []].
  exists (c :: sp). split; [by constructor|]. simpl. by f_equal.
Qed.

Lemma split_from_trailing w x sp :
  Forall (λ c, isspace c = true) sp →
  split_from w (x ++ sp) = split_from w x.
Proof.
  intros Hsp. revert x.
  induction sp as [|c sp IH] using rev_ind; intros x.
  - by rewrite app_nil_r.
  - apply Forall_app in Hsp as [Hsp Hc].
    inversion Hc as [|?? Hc' _]; subst.
    rewrite app_assoc, split_from_sep by exact Hc'. simpl.
    rewrite app_nil_r. by apply IH.
Qed.

Lemma split_rstrip s : split (rstrip s) = split s.
Proof.
  unfold rstrip. destruct (lstrip_decompose (reverse s)) as (sp & Hsp & E).
  apply (f_equal reverse) in E.
  rewrite reverse_involutive, reverse_app in E.
  rewrite E at 2. unfold split. rewrite split_from_trailing; [done|].
  by apply Forall_reverse.
Qed.

Lemma split_strip s : split (strip s) = split s.
Proof. unfold strip. by rewrite split_rstrip, split_lstrip. Qed.

Lemma split_from_words w s :
  Forall (λ c, isspace c = false) w → Forall word (split_from w s).
Proof.
  revert w. induction s as [|c s IH]; intros w Hw; simpl.
  - destruct w; [apply Forall_nil_2|].
    apply Forall_cons_2; [by split|apply Forall_nil_2].
  - destruct (isspace c) eqn:Hc.
    + destruct w as [|d w]; [by apply IH|].
      apply Forall_cons_2; [by split|by apply IH].
    + apply IH. apply Forall_app. split; [done|by constructor].
Qed.

Lemma split_words s : Forall word (split s).
Proof. by apply split_from_words. Qed.

Lemma split_from_word w x s :
  Forall (λ c, isspace c = false) x →
  split_from w (x ++ s) = split_from (w ++ x) s.
Proof.
  revert w. induction x as [|c x IH]; intros w Hx; simpl.
  - by rewrite app_nil_r.
  - inversion Hx as [|?? Hc Hx']; subst. rewrite Hc, IH by done.
    by rewrite <-app_assoc.
Qed.

Lemma split_one_word x : word x → split x = [x].
Proof.
  intros [Hne Hx]. unfold split.
  pose proof (split_from_word [] x [] Hx) as E.
  rewrite app_nil_r in E. rewrite E. simpl. by destruct x.
Qed.

Lemma split_join l : split (join space l) = concat (split <$> l).
Proof.
  induction l as [|x l IH]; [done|].
  destruct l as [|y l].
  - simpl. by rewrite app_nil_r.
  - change (join space (x :: y :: l)) with (x ++ space ++ join space (y :: l)).
    rewrite split_app_space, IH. done.
Qed.

Lemma split_join_words (ws : list str) :
  Forall word ws → split (join space ws) = ws.
Proof.
  intros Hws. rewrite split_join.
  induction Hws as [|x ws Hx Hws IH]; [done|].
  change (concat (split <$> x :: ws))
    with (split x ++ concat (split <$> ws)).
  by rewrite split_one_word, IH.
Qed.

Lemma split_nil_strip s : split s = [] ↔ strip s = [].
Proof.
  assert (∀ s, split s = [] ↔ lstrip s = []) as Hl.
  { clear s. intros s. induction s as [|c s IH]; [done|].
    unfold split in *. simpl. destruct (isspace c) eqn:Hc; [done|].
    split; [|done]. intros H.
    pose proof (split_from_word [] [c] s) as E. simpl in E.
    assert (∀ w s', w ≠ [] → split_from w s' ≠ []) as Hne.
    { intros w s'. revert w. induction s' as [|d s' IH']; intros w Hw; simpl.
      - by destruct w.
      - destruct (isspace d); [by destruct w|]. apply IH'. by destruct w. }
    by apply Hne in H. }
  split.
  - intros H. apply Hl in H. unfold strip. by rewrite H.
  - intros H. rewrite <-split_strip. by rewrite H.
Qed.

End strings.

(** ** Element trees *)

Lemma Element_induction (P : Element → Prop) :
  (∀ t a x tl cs, Forall P cs → P (mkElement t a x tl cs)) → ∀ e, P e.
Proof.
  intros H. fix IH 1. intros [t a x tl cs]. apply H.
  induction cs as [|c cs IHcs]; constructor; [apply IH|apply IHcs].
Qed.

Lemma elem_of_flat_imap {A B} (f : nat → A → list B) n l y :
  y ∈ flat_imap f n l ↔ ∃ j x, l !! j = Some x ∧ y ∈ f (n + j) x.
Proof.
  revert n. induction l as [|x l IH]; intros n; simpl.
  - split; [by intros ?%elem_of_nil|by intros (j & ? & ? & _)].
  - rewrite elem_of_app, IH. split.
    + intros [H|(j & z & Hj & H)].
      * exists 0, x. by rewrite Nat.add_0_r.
      * exists (S j), z. by rewrite Nat.add_succ_r.
    + intros ([|j] & z & Hj & H); simpl in Hj.
      * left. injection Hj as ->. by rewrite Nat.add_0_r in H.
      * right. exists j, z. by rewrite Nat.add_succ_r in H.
Qed.

Lemma fmap_flat_imap {A B C} (g : B → C) (f : nat → A → list B) n l :
  g <$> flat_imap f n l = flat_imap (λ i x, g <$> f i x) n l.
Proof.
  revert n. induction l as [|x l IH]; intros n; simpl; [done|].
  by rewrite fmap_app, IH.
Qed.

Lemma flat_imap_ext {A B} (f g : nat → A → list B) n l :
  (∀ i x, f i x = g i x) → flat_imap f n l = flat_imap g n l.
Proof.
  intros H. revert n. induction l as [|x l IH]; intros n; simpl; [done|].
  by rewrite H, IH.
Qed.

Lemma iter_unfold e :
  iter e = ([], e) :: flat_imap (λ i c, under i <$> iter c) 0 (children e).
Proof. by destruct e. Qed.

Lemma skel_unfold e :
  skel e = ([], tag e) :: flat_imap (λ i c, under i <$> skel c) 0 (children e).
Proof.
  unfold skel. rewrite iter_unfold at 1. rewrite fmap_cons. f_equal.
  rewrite fmap_flat_imap. apply flat_imap_ext. intros i c.
  rewrite <-!list_fmap_compose. by apply list_fmap_ext.
Qed.

Lemma iter_get e p x : (p, x) ∈ iter e → get e p = Some x.
Proof.
  revert p x. induction e as [t a tx tl cs IH] using Element_induction.
  intros p x. rewrite iter_unfold, elem_of_cons, elem_of_flat_imap. simpl.
  intros [[= -> ->]|(j & c & Hj & H)]; [done|].
  apply list_elem_of_fmap in H as ([q y] & [= -> ->] & Hy). simpl.
  rewrite Hj. simpl. eapply Forall_lookup_1 in IH; [|done]. by apply IH.
Qed.

Lemma get_iter e p x : get e p = Some x → (p, x) ∈ iter e.
Proof.
  revert e. induction p as [|i p IH]; intros e; simpl.
  - intros [= ->]. rewrite iter_unfold. apply list_elem_of_here.
  - destruct (children e !! i) as [c|] eqn:Hi; [|done]. simpl. intros H.
    rewrite iter_unfold. apply list_elem_of_further, elem_of_flat_imap.
    exists i, c. split; [done|].
    apply list_elem_of_fmap. exists (p, x). split; [done|by apply IH].
Qed.

Lemma iter_paths_skel e : (iter e).*1 = (skel e).*1.
Proof. unfold skel. rewrite <-list_fmap_compose. by apply list_fmap_ext. Qed.

Lemma NoDup_skel e : NoDup (skel e).*1.
Proof.
  induction e as [t a tx tl cs IH] using Element_induction.
  rewrite skel_unfold, fmap_cons. cbn [children fst].
  assert (∀ n, NoDup (flat_imap (λ i c, under i <$> skel c) n cs).*1 ∧
               ∀ p, p ∈ (flat_imap (λ i c, under i <$> skel c) n cs).*1 →
                    ∃ j q, p = j :: q ∧ n ≤ j) as H.
  { induction IH as [|c cs Hc _ IHcs]; intros n; simpl.
    - split; [constructor|by intros ? ?%elem_of_nil].
    - destruct (IHcs (S n)) as [N1 N2]. rewrite fmap_app. split.
      + apply NoDup_app. split_and!; [| |done].
        * rewrite <-list_fmap_compose.
          assert ((fst ∘ under n <$> skel c) = (cons n) <$> (skel c).*1) as ->.
          { rewrite <-list_fmap_compose. by apply list_fmap_ext. }
          apply NoDup_fmap_2; [|done]. by intros ?? [= ->].
        * intros p Hp Hp'. apply N2 in Hp' as (j & q & -> & Hj).
          apply list_elem_of_fmap in Hp as (y & E & Hy).
          apply list_elem_of_fmap in Hy as (z & -> & _).
          simpl in E. injection E as ->. lia.
      + intros p [Hp|Hp]%elem_of_app.
        * apply list_elem_of_fmap in Hp as (y & -> & Hy).
          apply list_elem_of_fmap in Hy as (z & -> & _).
          exists n, z.1. by split.
        * apply N2 in Hp as (j & q & -> & Hj). exists j, q. split; [done|lia]. }
  destruct (H 0) as [N1 N2]. constructor; [|done].
  intros (j & q & E & _)%N2. done.
Qed.

Lemma NoDup_iter e : NoDup (iter e).*1.
Proof. rewrite iter_paths_skel. apply NoDup_skel. Qed.

(** ** Assignments to [.text] *)

Lemma flat_imap_skel_alter g i cs n :
  (∀ c, cs !! i = Some c → skel (g c) = skel c) →
  flat_imap (λ i c, under i <$> skel c) n (alter g i cs)
  = flat_imap (λ i c, under i <$> skel c) n cs.
Proof.
  revert i n. induction cs as [|c cs IH]; intros i n H; [done|].
  destruct i as [|i]; simpl.
  - by rewrite H.
  - f_equal. apply IH. intros c' Hc'. by apply H.
Qed.

Lemma skel_modify f p e :
  (∀ x, get e p = Some x → skel (f x) = skel x) →
  skel (modify f p e) = skel e.
Proof.
  revert e. induction p as [|i p IH]; intros e H; simpl.
  - by apply H.
  - rewrite (skel_unfold e), skel_unfold. cbn [tag children]. f_equal.
    apply flat_imap_skel_alter. intros c Hc. apply IH.
    intros x Hx. apply H. simpl. by rewrite Hc.
Qed.

Lemma skel_with_text v e : skel (with_text v e) = skel e.
Proof. by rewrite (skel_unfold e), skel_unfold. Qed.

Lemma skel_set_text e p v : skel (set_text e p v) = skel e.
Proof. apply skel_modify. intros. apply skel_with_text. Qed.

Lemma get_modify f p e : get (modify f p e) p = f <$> get e p.
Proof.
  revert e. induction p as [|i p IH]; intros e; simpl; [done|].
  rewrite list_lookup_alter. destruct decide; [|done].
  destruct (children e !! i); simpl; [apply IH|done].
Qed.

Lemma get_modify_below f p q e x :
  get e p = Some x → get (modify f p e) (p ++ q) = get (f x) q.
Proof.
  revert e. induction p as [|i p IH]; intros e; simpl.
  - by intros [= ->].
  - rewrite list_lookup_alter. destruct decide; [|done].
    destruct (children e !! i); simpl; [apply IH|done].
Qed.

(** Addresses that do not lie at or below [p] keep their tag and text. *)
Lemma node_modify_other (h : Element → option str) f p q e :
  (∀ a b c d cs cs', h (mkElement a b c d cs) = h (mkElement a b c d cs')) →
  ¬ (∃ r, q = p ++ r) →
  h <$> get (modify f p e) q = h <$> get e q.
Proof.
  intros Hh. revert e q. induction p as [|i p IH]; intros e q Hq.
  - destruct Hq. by exists q.
  - destruct q as [|j q]; simpl.
    + f_equal. destruct e. apply Hh.
    + rewrite list_lookup_alter. destruct decide as [<-|]; [|done].
      destruct (children e !! i) as [c|]; simpl; [|done].
      apply IH. intros [r ->]. apply Hq. by exists r.
Qed.

Lemma text_at_set_text_eq e p v :
  is_Some (get e p) → text_at (set_text e p v) p = Some v.
Proof.
  intros [x Hx]. unfold text_at, set_text. by rewrite get_modify, Hx.
Qed.

Lemma text_at_set_text_ne e p q v :
  p ≠ q → text_at (set_text e p v) q = text_at e q.
Proof.
  intros Hne. unfold text_at, set_text.
  destruct (decide (p `prefix_of` q)) as [[r ->]|Hn].
  - destruct (get e p) as [x|] eqn:Hx.
    + rewrite (get_modify_below _ _ _ _ x) by done.
      assert (get e (p ++ r) = get x r) as ->.
      { clear Hne. revert e Hx. induction p as [|i p IH]; intros e; simpl.
        - by intros [= ->].
        - destruct (children e !! i); simpl; [apply IH|done]. }
      destruct r as [|j r]; [by rewrite app_nil_r in Hne|]. by destruct x.
    + assert (∀ g, get (modify g p e) (p ++ r) = None) as Hnone.
      { intros g. clear Hne. revert e Hx.
        induction p as [|i p IH]; intros e; simpl; [done|].
        rewrite list_lookup_alter. destruct decide; [|done].
        destruct (children e !! i); simpl; [apply IH|done]. }
      rewrite Hnone. specialize (Hnone id).
      assert (modify id p e = e) as E.
      { clear. revert e. induction p as [|i p IH]; intros [a b c d cs]; simpl; [done|].
        f_equal. apply list_eq. intros j. rewrite list_lookup_alter.
        destruct decide as [<-|]; [|done].
        destruct (cs !! i); simpl; [by rewrite IH|done]. }
      by rewrite E in Hnone; rewrite Hnone.
  - by apply node_modify_other.
Qed.

Lemma skel_assign e l : skel (assign e l) = skel e.
Proof.
  revert e. induction l as [|[p v] l IH]; intros e; simpl; [done|].
  unfold assign in *. simpl. by rewrite IH, skel_set_text.
Qed.

Lemma text_at_assign_other e l q :
  q ∉ l.*1 → text_at (assign e l) q = text_at e q.
Proof.
  revert e. induction l as [|[p v] l IH]; intros e Hq; [done|].
  rewrite fmap_cons, not_elem_of_cons in Hq. destruct Hq as [Hne Hq].
  unfold assign in *. simpl. rewrite IH by done.
  by apply text_at_set_text_ne.
Qed.

Lemma valid_path_skel e p : p ∈ (skel e).*1 ↔ is_Some (get e p).
Proof.
  rewrite <-iter_paths_skel. split.
  - intros ([q x] & -> & H)%list_elem_of_fmap. exists x. by apply iter_get.
  - intros [x Hx]. apply list_elem_of_fmap. exists (p, x).
    split; [done|by apply get_iter].
Qed.

Lemma text_at_assign e l i p v :
  NoDup l.*1 → l !! i = Some (p, v) → is_Some (get e p) →
  text_at (assign e l) p = Some v.
Proof.
  revert e i. induction l as [|[q w] l IH]; intros e i Hnd Hi Hp; [done|].
  rewrite fmap_cons in Hnd. apply NoDup_cons in Hnd as [Hq Hnd].
  unfold assign in *. destruct i as [|i]; simpl in *.
  - injection Hi as -> ->. fold (assign (set_text e p v) l).
    rewrite text_at_assign_other by done. by apply text_at_set_text_eq.
  - eapply IH; [done|done|].
    apply valid_path_skel. rewrite skel_set_text. by apply valid_path_skel.
Qed.

(** The text leaves of a tree are determined by its skeleton. *)
Lemma iter_tag_paths t e :
  (iter_tag t e).*1 = (filter (λ y, y.2 = t) (skel e)).*1.
Proof.
  unfold iter_tag, skel. induction (iter e) as [|x l IH]; [done|].
  rewrite fmap_cons, !filter_cons. simpl.
  destruct (decide (tag x.2 = t)); rewrite ?fmap_cons, IH; done.
Qed.

Lemma leaf_text_lookup e i p :
  (iter_tag w_t e).*1 !! i = Some p → leaf_texts e !! i = text_at e p.
Proof.
  unfold leaf_texts, text_at. rewrite !list_lookup_fmap.
  destruct (iter_tag w_t e !! i) as [[q x]|] eqn:Hi; [|done]. simpl.
  intros [= ->]. apply list_elem_of_lookup_2 in Hi.
  apply list_elem_of_filter in Hi as [_ Hi]. by rewrite (iter_get _ _ _ Hi).
Qed.

(** ** Redistribution: [update_text] *)

Lemma foldl_step {A B} (f : A → B → A) a x l :
  foldl f a (x :: l) = foldl f (f a x) l.
Proof. done. Qed.

Lemma foldl_ext_in {A B} (f g : A → B → A) (l : list B) a :
  (∀ a x, x ∈ l → f a x = g a x) → foldl f a l = foldl g a l.
Proof.
  revert a. induction l as [|x l IH]; intros a H; simpl; [done|].
  rewrite H by apply list_elem_of_here. apply IH.
  intros ???. apply H. by apply list_elem_of_further.
Qed.

Lemma share_beyond (words : list str) n k i :
  length words ≤ i * k → share words n k i = [].
Proof.
  intros H. unfold share, slice.
  destruct (i <? n - 1); rewrite drop_ge by done; by rewrite ?take_nil.
Qed.

(** With two text leaves or more, [update_text] is the assignment of
    leaf [i]'s share of the words to leaf [i]. *)
Lemma update_text_multi element translated :
  truthy (strip translated) = true →
  2 ≤ length (iter_tag w_t element) →
  let words := split translated in
  let n := length (iter_tag w_t element) in
  let k := Nat.max 1 (length words / n) in
  update_text element (Some translated)
  = Ok (assign element
          (imap (λ i t, (t.1, Some (join space (share words n k i))))
                (iter_tag w_t element))).
Proof.
  intros Ht Hn. cbv zeta. unfold update_text. rewrite Ht. simpl.
  destruct (iter_tag w_t element) as [|a [|b l]] eqn:E;
    [simpl in Hn; lia|simpl in Hn; lia|].
  rewrite <-E. clear E. f_equal. unfold assign, enumerate.
  set (words := split translated).
  set (n := length (iter_tag w_t element)).
  set (k := Nat.max 1 (length words / n)).
  assert (imap (λ i t, (t.1, Some (join space (share words n k i))))
               (iter_tag w_t element)
          = (λ it : nat * (path * Element),
               (it.2.1, Some (join space (share words n k it.1))))
              <$> imap pair (iter_tag w_t element)) as ->.
  { by rewrite fmap_imap. }
  rewrite foldl_fmap. apply foldl_ext_in. intros el [i t] _. simpl.
  destruct (i * k <? length words) eqn:Hlt.
  - unfold share. replace ((i + 1) * k) with (i * k + k) by lia.
    by destruct (i <? n - 1).
  - apply Nat.ltb_ge in Hlt. by rewrite share_beyond.
Qed.

Lemma skel_foldl {A} (g : Element → A → Element) e (l : list A) :
  (∀ el x, skel (g el x) = skel el) → skel (foldl g e l) = skel e.
Proof.
  intros H. revert e. induction l as [|x l IH]; intros e; simpl; [done|].
  by rewrite IH, H.
Qed.

Lemma update_text_leaves element translated e' :
  update_text element (Some translated) = Ok e' → skel e' = skel element.
Proof.
  unfold update_text.
  set (body := foldl _ element (enumerate _)).
  assert (skel body = skel element) as Hbody.
  { apply skel_foldl. intros el it. destruct (_ <? _); apply skel_set_text. }
  clearbody body.
  destruct (negb _); [by intros [= <-]|].
  destruct (iter_tag w_t element) as [|a [|b l]].
  - by intros [= <-].
  - intros [= <-]. apply skel_set_text.
  - by intros [= <-].
Qed.

Lemma sublist_fmap_fst_filter {A B} (P : A * B → Prop)
    `{!∀ x, Decision (P x)} (l : list (A * B)) :
  (filter P l).*1 `sublist_of` l.*1.
Proof.
  induction l as [|x l IH]; [done|]. rewrite filter_cons, fmap_cons.
  destruct decide; [rewrite fmap_cons; by constructor|by constructor].
Qed.

Lemma leaf_texts_assign element (f : nat → str) :
  leaf_texts (assign element (imap (λ i t, (t.1, Some (f i)))
                                   (iter_tag w_t element)))
  = (λ i, Some (f i)) <$> seq 0 (length (iter_tag w_t element)).
Proof.
  set (l := imap _ _). set (e' := assign element l).
  assert ((iter_tag w_t e').*1 = (iter_tag w_t element).*1) as Hp.
  { rewrite !iter_tag_paths. unfold e'. by rewrite skel_assign. }
  assert (l.*1 = (iter_tag w_t element).*1) as Hl.
  { unfold l. rewrite fmap_imap. apply list_eq. intros i.
    rewrite list_lookup_imap, list_lookup_fmap. by destruct (_ !! i). }
  apply list_eq. intros i. rewrite list_lookup_fmap.
  destruct (decide (i < length (iter_tag w_t element))) as [Hi|Hi].
  - rewrite lookup_seq_lt by done. simpl.
    destruct (lookup_lt_is_Some_2 (iter_tag w_t element) i Hi) as [[p x] Hx].
    rewrite (leaf_text_lookup e' i p)
      by (by rewrite Hp, list_lookup_fmap, Hx).
    apply (text_at_assign element l i).
    + rewrite Hl. apply (sublist_NoDup _ (iter element).*1);
        [apply NoDup_iter|apply (sublist_fmap_fst_filter _ (iter element))].
    + unfold l. by rewrite list_lookup_imap, Hx.
    + exists x. apply iter_get.
      apply list_elem_of_lookup_2 in Hx.
      by apply list_elem_of_filter in Hx as [_ ?].
  - rewrite lookup_seq_ge by lia. simpl. apply lookup_ge_None_2.
    unfold leaf_texts. rewrite length_fmap.
    apply (f_equal length) in Hp. rewrite !length_fmap in Hp. lia.
Qed.

Lemma chunks_concat {A} (l : list A) k m :
  concat ((λ i, take k (drop (i * k) l)) <$> seq 0 m) ++ drop (m * k) l = l.
Proof.
  induction m as [|m IH]; [by rewrite drop_0|].
  rewrite seq_S, fmap_app, concat_app. simpl. rewrite app_nil_r, <-app_assoc.
  rewrite <-IH at 3. f_equal.
  rewrite <-(take_drop k (drop (m * k) l)) at 2. f_equal.
  rewrite drop_drop. f_equal. lia.
Qed.

Lemma shares_concat (words : list str) n k :
  1 ≤ n → concat ((λ i, share words n k i) <$> seq 0 n) = words.
Proof.
  intros Hn. destruct n as [|m]; [lia|].
  rewrite seq_S, fmap_app, concat_app. simpl. rewrite app_nil_r.
  etrans; [|apply (chunks_concat words k m)]. f_equal.
  - f_equal. apply list_fmap_ext. intros i j Hj.
    apply lookup_seq in Hj as [-> Hj]. unfold share. simpl.
    rewrite Nat.sub_0_r. apply Nat.ltb_lt in Hj as ->. unfold slice.
    f_equal. lia.
  - unfold share. simpl. rewrite Nat.sub_0_r, Nat.ltb_irrefl. done.
Qed.

(** C4. [update_text] on an element with [n >= 2] text leaves and a
    translated text that is not blank: with [words] the whitespace split of
    the text and [k = max 1 (length words / n)], the call succeeds, the text
    leaves stay the same elements, leaf [i < n - 1] holds
    [words[i*k : (i+1)*k]] joined by single spaces, the last leaf holds
    [words[(n-1)*k :]] joined by single spaces, and a leaf whose start index
    [i*k] is at or beyond the number of words holds the empty string. In
    particular three leaves and the text ["X Y Z W"] give ["X"], ["Y"],
    ["Z W"]. *)
Theorem update_text_redistributes :
  (∀ element translated,
     truthy (strip translated) = true →
     2 ≤ length (iter_tag w_t element) →
     let words := split translated in
     let n := length (iter_tag w_t element) in
     let k := Nat.max 1 (length words / n) in
     ∃ e', update_text element (Some translated) = Ok e' ∧
           (iter_tag w_t e').*1 = (iter_tag w_t element).*1 ∧
           ∀ i, i < n →
             (i < n - 1 →
              leaf_texts e' !! i
              = Some (Some (join space
                              (slice (i * k) (Some ((i + 1) * k)) words)))) ∧
             (i = n - 1 →
              leaf_texts e' !! i
              = Some (Some (join space (slice (i * k) None words)))) ∧
             (length words ≤ i * k → leaf_texts e' !! i = Some (Some []))) ∧
  (∀ element,
     length (iter_tag w_t element) = 3 →
     ∃ e', update_text element (Some (lit "X Y Z W")) = Ok e' ∧
           leaf_texts e' = [Some (lit "X"); Some (lit "Y"); Some (lit "Z W")]).
Proof.
  split.
  - intros element translated Ht Hn words n k.
    exists (assign element
              (imap (λ i t, (t.1, Some (join space (share words n k i))))
                    (iter_tag w_t element))).
    split; [by apply update_text_multi|].
    split; [by rewrite !iter_tag_paths, skel_assign|].
    intros i Hi.
    assert (leaf_texts
              (assign element
                 (imap (λ i t, (t.1, Some (join space (share words n k i))))
                       (iter_tag w_t element))) !! i
            = Some (Some (join space (share words n k i)))) as Hleaf.
    { rewrite leaf_texts_assign, list_lookup_fmap.
      fold n. by rewrite lookup_seq_lt by done. }
    split; [|split].
    + intros Hlt. rewrite Hleaf. unfold share.
      by apply Nat.ltb_lt in Hlt as ->.
    + intros E. rewrite Hleaf. unfold share. by rewrite E, Nat.ltb_irrefl.
    + intros Hge. etrans; [exact Hleaf|].
      by rewrite (share_beyond words n k i Hge).
  - intros element Hn. eexists.
    split; [apply update_text_multi; [done|lia]|].
    rewrite leaf_texts_assign, Hn. reflexivity.
Qed.

Lemma update_text_redistributes_witness :
  ∃ e', update_text (para [run (lit "A "); run (lit "B "); run (lit "C")])
                    (Some (lit "X Y Z W")) = Ok e' ∧
        leaf_texts e' !! 2 = Some (Some (lit "Z W")).
Proof.
  destruct (proj1 update_text_redistributes
              (para [run (lit "A "); run (lit "B "); run (lit "C")])
              (lit "X Y Z W"))
    as (e' & He & _ & Hleaf);
    [vm_compute; reflexivity | vm_compute; lia |].
  exists e'. split; [exact He|].
  destruct (Hleaf 2) as (_ & Hlast & _); [vm_compute; lia|].
  apply Hlast. reflexivity.
Defined.

(** C5. Word conservation: after [update_text] on an element with at
    least two text leaves and a translated text with at least one word, all
    leaves hold strings, and the words of their texts joined by single
    spaces and trimmed are exactly the words of the translated text, in
    order. *)
Theorem update_text_conserves_words element translated :
  2 ≤ length (iter_tag w_t element) →
  split translated ≠ [] →
  ∃ e' texts,
    update_text element (Some translated) = Ok e' ∧
    leaf_texts e' = Some <$> texts ∧
    length texts = length (iter_tag w_t element) ∧
    split (strip (join space texts)) = split translated.
Proof.
  intros Hn Hw.
  assert (truthy (strip translated) = true) as Ht.
  { destruct (strip translated) eqn:E; [|done].
    by apply split_nil_strip in E. }
  set (words := split translated).
  set (n := length (iter_tag w_t element)).
  set (k := Nat.max 1 (length words / n)).
  exists (assign element
            (imap (λ i t, (t.1, Some (join space (share words n k i))))
                  (iter_tag w_t element))),
         ((λ i, join space (share words n k i)) <$> seq 0 n).
  split; [by apply update_text_multi|].
  split; [by rewrite leaf_texts_assign, <-list_fmap_compose|].
  split; [by rewrite length_fmap, length_seq|].
  rewrite split_strip, split_join, <-list_fmap_compose.
  etrans; [|apply (shares_concat words n k); unfold n; lia].
  f_equal. apply list_fmap_ext. intros _ i _. simpl.
  apply split_join_words. unfold share, slice.
  destruct (i <? n - 1);
    eauto using Forall_take, Forall_drop, split_words.
Qed.

Lemma update_text_conserves_words_witness :
  ∃ e' texts,
    update_text (para [run (lit "A "); run (lit "B "); run (lit "C")])
                (Some (lit "X Y Z W")) = Ok e' ∧
    leaf_texts e' = Some <$> texts ∧
    length texts = 3 ∧
    split (strip (join space texts)) = split (lit "X Y Z W").
Proof.
  apply (update_text_conserves_words
           (para [run (lit "A "); run (lit "B "); run (lit "C")])
           (lit "X Y Z W")).
  - vm_compute. lia.
  - vm_compute. discriminate.
Defined.

(** ** The retry loop of [TranslationClient.translate] *)

Lemma translate_loop_calls c fuel attempt text lang n :
  n ≤ (translate_loop c fuel attempt text lang n).2 ≤ n + fuel.
Proof.
  revert attempt n. induction fuel as [|fuel IH]; intros attempt n; simpl.
  - lia.
  - destruct (translator c n text lang); simpl; [lia|].
    destruct (_ =? _)%Z; simpl; [lia|].
    specialize (IH (attempt + 1)%Z (S n)). lia.
Qed.

(** At most [max_retries] calls of the backend for one [translate]. *)
Lemma translate_calls c text lang n :
  n ≤ (translate c text lang n).2 ≤ n + Z.to_nat (max_retries c).
Proof. apply translate_loop_calls. Qed.

Lemma translate_loop_some c fuel attempt text lang n :
  1 ≤ fuel → (attempt + Z.of_nat fuel = max_retries c)%Z →
  ∃ r, (translate_loop c fuel attempt text lang n).1 = Some r.
Proof.
  revert attempt n. induction fuel as [|fuel IH]; intros attempt n Hf He.
  - lia.
  - simpl. destruct (translator c n text lang) as [r|]; [by exists r|].
    destruct (_ =? _)%Z eqn:E; [by exists error_sentinel|].
    apply Z.eqb_neq in E. apply IH; lia.
Qed.

Lemma translate_some c text lang n :
  (1 ≤ max_retries c)%Z → ∃ r, (translate c text lang n).1 = Some r.
Proof. intros H. apply translate_loop_some; lia. Qed.

Lemma translate_loop_down c fuel attempt text lang n :
  (∀ m, translator c m text lang = None) →
  1 ≤ fuel → (attempt + Z.of_nat fuel = max_retries c)%Z →
  translate_loop c fuel attempt text lang n = (Some error_sentinel, n + fuel).
Proof.
  intros Hdown. revert attempt n.
  induction fuel as [|fuel IH]; intros attempt n Hf He; [lia|].
  simpl. rewrite Hdown. destruct (_ =? _)%Z eqn:E.
  - apply Z.eqb_eq in E. f_equal. lia.
  - apply Z.eqb_neq in E. rewrite IH by lia. f_equal. lia.
Qed.

(** With a positive [max_retries], a text on which every attempt raises
    gets the sentinel after exactly [max_retries] attempts. *)
Lemma translate_down c text lang n :
  (1 ≤ max_retries c)%Z →
  (∀ m, translator c m text lang = None) →
  translate c text lang n
  = (Some error_sentinel, n + Z.to_nat (max_retries c)).
Proof. intros H Hd. apply translate_loop_down; [done|lia|lia]. Qed.

Lemma translate_no_retries c text lang n :
  (max_retries c ≤ 0)%Z → translate c text lang n = (None, n).
Proof.
  intros H. unfold translate.
  by replace (Z.to_nat (max_retries c)) with 0 by lia.
Qed.

(** C10. [translate] returns a string on every input exactly when
    [max_retries >= 1]; with [max_retries = 0] the loop body never runs and
    [translate] returns [None] on every input, without calling the
    backend. *)
Theorem translate_returns_str_iff c :
  ((∀ text lang n, ∃ r, (translate c text lang n).1 = Some r)
   ↔ (1 ≤ max_retries c)%Z) ∧
  (max_retries c = 0%Z →
   ∀ text lang n, translate c text lang n = (None, n)).
Proof.
  split; [split|].
  - intros H. destruct (Z_le_gt_dec 1 (max_retries c)) as [|Hgt]; [done|].
    destruct (H [] [] 0) as [r Hr].
    rewrite translate_no_retries in Hr by lia. done.
  - intros H text lang n. by apply translate_some.
  - intros H text lang n. apply translate_no_retries. lia.
Qed.

Lemma translate_returns_str_iff_witness :
  translate (mkClient backend_echo 0) (lit "Bonjour") (lit "English") 0
  = (None, 0).
Proof.
  apply (proj2 (translate_returns_str_iff (mkClient backend_echo 0))).
  reflexivity.
Defined.

(** C8, at [max_retries = 0]: no attempt is made, [translate] returns
    [None] and not the sentinel, and [translate_document]'s paragraph pass
    raises [AttributeError] on the first paragraph that has text. *)
Theorem translate_zero_retries_returns_none :
  translate (mkClient backend_down 0) (lit "Bonjour") (lit "English") 0
  = (None, 0) ∧
  translate_tree (mkClient backend_down 0) (lit "English")
                 (document [para [run (lit "Bonjour")]]) new_session
  = Raise AttributeError.
Proof. split; vm_compute; reflexivity. Qed.

(** ** The paragraph pass *)

Lemma update_text_some element translated :
  ∃ e', update_text element (Some translated) = Ok e'.
Proof.
  unfold update_text. destruct (negb _); [by eexists|].
  destruct (iter_tag w_t element) as [|a [|b l]]; by eexists.
Qed.

Lemma paragraph_step_total c lang root s p :
  (1 ≤ max_retries c)%Z →
  ∃ r, paragraph_step c lang (Ok (root, s)) p = Ok r.
Proof.
  intros Hc. unfold paragraph_step.
  destruct (get root p) as [element|]; [|by eexists].
  destruct (truthy _); [|by eexists].
  unfold submit. simpl.
  destruct (translate_some c (extract_text element) lang (calls s) Hc)
    as [r ->].
  destruct (update_text_some element r) as [e' ->]. by eexists.
Qed.

Lemma paragraph_pass_total c lang root s :
  (1 ≤ max_retries c)%Z → ∃ r, paragraph_pass c lang root s = Ok r.
Proof.
  intros Hc. unfold paragraph_pass.
  generalize (findall w_p root).*1. intros l. revert root s.
  induction l as [|p l IH]; intros root s; [by eexists|].
  rewrite foldl_step.
  destruct (paragraph_step_total c lang root s p Hc) as [[root1 s1] ->].
  apply IH.
Qed.

(** With a positive [max_retries] the two passes raise nothing. *)
Lemma translate_tree_total c lang root s :
  (1 ≤ max_retries c)%Z → ∃ r, translate_tree c lang root s = Ok r.
Proof.
  intros Hc. unfold translate_tree.
  destruct (paragraph_pass_total c lang root s Hc) as [[root1 s1] ->].
  by eexists.
Qed.

(** C1, on a paragraph with the one run ["Bonjour"] and a backend that is
    down: the client returns the sentinel after three attempts, and the
    paragraph pass writes it into the paragraph. With two runs the first
    holds ["error"] and the second is emptied. *)
Theorem sentinel_overwrites_paragraph :
  (∃ s', translate_tree (default_client backend_down) (lit "English")
           (document [para [run (lit "Bonjour")]]) new_session
         = Ok (document [para [run (lit "error")]], s') ∧ calls s' = 3) ∧
  (∃ s', translate_tree (default_client backend_down) (lit "English")
           (document [para [run (lit "Bon"); run (lit "jour")]]) new_session
         = Ok (document [para [run (lit "error"); run []]], s')).
Proof. split; eexists; vm_compute; [split|]; reflexivity. Qed.

(** ** The scratch directory and the archive *)

Section Archive.

Variable parse : bytes → option Element.
Variable serialize : Element → bytes.


Lemma extractall_files z t n :
  is_Some (files (extractall z t) !! n)
  ↔ n ∈ file_names z ∨ is_Some (files t !! n).
Proof.
  revert t. induction z as [|[m k] z IH]; intros t.
  - change (file_names []) with (@nil string).
    rewrite elem_of_nil. unfold extractall. simpl. tauto.
  - change (extractall ((m, k) :: z) t)
      with (extractall z (extract_member t (m, k))).
    rewrite IH. unfold extract_member.
    destruct k as [data|]; cbn [snd fst files].
    + change (file_names ((m, File data) :: z)) with (m :: file_names z).
      rewrite elem_of_cons, lookup_insert_is_Some.
      destruct (decide (m = n)) as [->|]; [tauto|].
      split; [intros [?|[?|[_ ?]]]|intros [[?|?]|?]]; auto; done.
    + by change (file_names ((m, Directory) :: z)) with (file_names z).
Qed.

Lemma pack_entries t n m :
  (n, m) ∈ pack t ↔ ∃ data, m = File data ∧ files t !! n = Some data.
Proof.
  unfold pack. rewrite list_elem_of_fmap. split.
  - intros ([k data] & [= -> ->] & H%elem_of_map_to_list). by exists data.
  - intros (data & -> & H). exists (n, data).
    split; [done|by apply elem_of_map_to_list].
Qed.

Lemma pack_names t : names (pack t) = (map_to_list (files t)).*1.
Proof.
  unfold names, pack. rewrite <-list_fmap_compose. by apply list_fmap_ext.
Qed.

Lemma archives_start fs :
  archives (makedirs (if exists_temp fs then rmtree fs else fs))
  = archives fs.
Proof. by destruct (exists_temp fs). Qed.


End Archive.



(** ** Addresses and the paragraph pass *)

Lemma get_app e p r : get e (p ++ r) = get e p ≫= λ x, get x r.
Proof.
  revert e. induction p as [|i p IH]; intros e; simpl; [done|].
  destruct (children e !! i); simpl; [apply IH|done].
Qed.

(** A change at [q] is not seen at an address that is neither above nor
    below [q]. *)
Lemma get_modify_apart f q p e :
  ¬ q `prefix_of` p → ¬ p `prefix_of` q → get (modify f q e) p = get e p.
Proof.
  revert e p. induction q as [|j q IH]; intros e p Hqp Hpq.
  - destruct Hqp. apply prefix_nil.
  - destruct p as [|i p]; [destruct Hpq; apply prefix_nil|]. simpl.
    rewrite list_lookup_alter. destruct decide as [<-|]; [|done].
    destruct (children e !! j) as [c|]; simpl; [|done].
    apply IH; intros H; [apply Hqp|apply Hpq]; by apply prefix_cons.
Qed.

Lemma elem_of_iter_below e r y :
  (r, y) ∈ iter e → r ≠ [] → (r, y) ∈ drop 1 (iter e).
Proof.
  rewrite iter_unfold. simpl. rewrite drop_0.
  intros [[= -> _]|H]%elem_of_cons; done.
Qed.

Lemma elem_of_findall t e p x :
  (p, x) ∈ findall t e ↔ p ≠ [] ∧ get e p = Some x ∧ tag x = t.
Proof.
  unfold findall. rewrite list_elem_of_filter. simpl. split.
  - intros [Ht H]. split_and!; [|apply iter_get|done].
    + rewrite iter_unfold in H. simpl in H. rewrite drop_0 in H.
      apply elem_of_flat_imap in H as (j & c & _ & H).
      apply list_elem_of_fmap in H as (y & E & _). by injection E as -> _.
    + eapply elem_of_sublist; [exact H|apply sublist_drop].
  - intros (Hp & Hg & Ht). split; [done|].
    apply elem_of_iter_below; [by apply get_iter|done].
Qed.

Lemma findall_paths_NoDup t e : NoDup (findall t e).*1.
Proof.
  apply (sublist_NoDup _ (iter e).*1); [apply NoDup_iter|].
  etrans; [apply sublist_fmap_fst_filter|].
  rewrite fmap_drop. apply sublist_drop.
Qed.

Lemma is_math_element_above x r y :
  get x r = Some y → is_math_element y = true → is_math_element x = true.
Proof.
  intros Hg. unfold is_math_element. rewrite !existsb_exists.
  intros ([q z] & Hin & Hz). apply list_elem_of_In, iter_get in Hin.
  exists (r ++ q, z). split; [|done].
  apply list_elem_of_In, get_iter. by rewrite get_app, Hg.
Qed.

Lemma extract_text_formula element :
  is_math_element element = true → extract_text element = [].
Proof. intros H. unfold extract_text. by rewrite H. Qed.

Lemma foldl_paragraph_step_raise c lang e l :
  foldl (paragraph_step c lang) (Raise e) l = Raise e.
Proof. induction l as [|p l IH]; [done|]. by rewrite foldl_step. Qed.

(** What one visit of the paragraph pass does. *)
Lemma paragraph_step_inv c lang root s q root' s' :
  paragraph_step c lang (Ok (root, s)) q = Ok (root', s') →
  (root' = root ∧ s' = s ∧
   ∀ x, get root q = Some x → truthy (strip (extract_text x)) = false) ∨
  (∃ x x' r, get root q = Some x ∧
             truthy (strip (extract_text x)) = true ∧
             update_text x r = Ok x' ∧ root' = put x' q root ∧
             log s' = log s ++ [mkRequest (FromParagraph q)
                                          (extract_text x) lang]).
Proof.
  unfold paragraph_step.
  destruct (get root q) as [x|] eqn:Hq; [|intros [= <- <-]; by left].
  destruct (truthy _) eqn:Ht.
  - destruct (update_text x _) as [x'|] eqn:Hu; [|done].
    intros [= <- <-]. right. exists x, x'. eexists.
    split_and!; [done|done|exact Hu|done|done].
  - intros [= <- <-]. left. split_and!; [done|done|].
    by intros ? [= <-].
Qed.

Lemma paragraph_fold_log c lang l root s root' s' :
  foldl (paragraph_step c lang) (Ok (root, s)) l = Ok (root', s') →
  ∃ new ps, log s' = log s ++ new ∧ ps `sublist_of` l ∧
            req_origin <$> new = FromParagraph <$> ps.
Proof.
  revert root s. induction l as [|q l IH]; intros root s.
  - intros [= <- <-]. exists [], []. by rewrite app_nil_r.
  - rewrite foldl_step.
    destruct (paragraph_step c lang (Ok (root, s)) q) as [[r1 s1]|e] eqn:E;
      [|by rewrite foldl_paragraph_step_raise].
    intros (new & ps & Hlog & Hsub & Ho)%IH.
    apply paragraph_step_inv in E
      as [(-> & -> & _)|(x & x' & r & _ & _ & _ & _ & Hs1)].
    + exists new, ps. split_and!; [done|by apply sublist_cons|done].
    + exists (mkRequest (FromParagraph q) (extract_text x) lang :: new),
             (q :: ps).
      split_and!.
      * by rewrite Hlog, Hs1, <-app_assoc.
      * by apply sublist_skip.
      * by rewrite !fmap_cons, Ho.
Qed.

Lemma paragraph_fold_apart c lang l p root s root' s' :
  (∀ q, q ∈ l → ¬ q `prefix_of` p ∧ ¬ p `prefix_of` q) →
  foldl (paragraph_step c lang) (Ok (root, s)) l = Ok (root', s') →
  get root' p = get root p.
Proof.
  revert root s. induction l as [|q l IH]; intros root s Hl.
  - by intros [= <- <-].
  - rewrite foldl_step.
    destruct (paragraph_step c lang (Ok (root, s)) q) as [[r1 s1]|e] eqn:E;
      [|by rewrite foldl_paragraph_step_raise].
    intros H. apply IH in H;
      [|intros q' Hq'; apply Hl; by apply list_elem_of_further].
    rewrite H.
    apply paragraph_step_inv in E
      as [(-> & _)|(x & x' & r & _ & _ & _ & -> & _)]; [done|].
    destruct (Hl q) as [H1 H2]; [apply list_elem_of_here|].
    by apply get_modify_apart.
Qed.

Lemma foldl_paragraph_step_app c lang l1 l2 acc root' s' :
  foldl (paragraph_step c lang) acc (l1 ++ l2) = Ok (root', s') →
  ∃ r1 s1, foldl (paragraph_step c lang) acc l1 = Ok (r1, s1) ∧
           foldl (paragraph_step c lang) (Ok (r1, s1)) l2 = Ok (root', s').
Proof.
  rewrite foldl_app.
  destruct (foldl (paragraph_step c lang) acc l1) as [[r1 s1]|e];
    [by exists r1, s1|by rewrite foldl_paragraph_step_raise].
Qed.

#[local] Instance FromParagraph_inj : Inj (=) (=) FromParagraph.
Proof. by intros ?? [= ->]. Qed.




(** ** Formulas *)

Lemma paragraph_fold_formula c lang l p element root s root' s' :
  is_math_element element = true →
  (∀ q, q ∈ l → p `prefix_of` q → q = p) →
  get root p = Some element →
  foldl (paragraph_step c lang) (Ok (root, s)) l = Ok (root', s') →
  get root' p = Some element ∧
  ∃ new, log s' = log s ++ new ∧ FromParagraph p ∉ req_origin <$> new.
Proof.
  intros Hm. revert root s. induction l as [|q l IH]; intros root s Hl Hget.
  - intros [= <- <-]. split; [done|]. exists []. rewrite app_nil_r.
    split; [done|apply not_elem_of_nil].
  - rewrite foldl_step.
    destruct (paragraph_step c lang (Ok (root, s)) q) as [[r1 s1]|e] eqn:E;
      [|by rewrite foldl_paragraph_step_raise].
    assert (∀ q', q' ∈ l → p `prefix_of` q' → q' = p) as Hl'.
    { intros q' Hq'. apply Hl. by apply list_elem_of_further. }
    apply paragraph_step_inv in E
      as [(-> & -> & _)|(x & x' & r & Hx & Ht & _ & -> & Hs1)].
    + by apply IH.
    + destruct (decide (q `prefix_of` p)) as [[k ->]|Hqp].
      * rewrite get_app, Hx in Hget. simpl in Hget.
        rewrite (extract_text_formula x) in Ht; [done|].
        by eapply is_math_element_above.
      * assert (¬ p `prefix_of` q) as Hpq.
        { intros H. apply Hqp. rewrite (Hl q); [done|apply list_elem_of_here|done]. }
        intros H. apply IH in H as (Hg & new & Hlog & Hnew); [|done|].
        -- split; [done|]. eexists (_ :: new).
           split; [by rewrite Hlog, Hs1, <-app_assoc|].
           rewrite fmap_cons, not_elem_of_cons. split; [|done].
           simpl. intros [= ->]. by apply Hqp.
        -- unfold put. by rewrite get_modify_apart.
Qed.




(** ** Trimmed strings and the text of a cell *)

Lemma lstrip_head_ok w r : head_ok w → lstrip (w ++ r) = w ++ r.
Proof. destruct w as [|c w]; [done|]. simpl. by intros ->. Qed.

Lemma lstrip_nil_or_head s : lstrip s = [] ∨ head_ok (lstrip s).
Proof.
  induction s as [|c s IH]; [by left|]. simpl.
  destruct (isspace c) eqn:E; [done|]. by right.
Qed.

Lemma rstrip_last_ok x w : head_ok (reverse w) → rstrip (x ++ w) = x ++ w.
Proof.
  intros H. unfold rstrip. rewrite reverse_app, lstrip_head_ok by done.
  by rewrite <-reverse_app, reverse_involutive.
Qed.

Lemma rstrip_space x : rstrip (x ++ space) = rstrip x.
Proof. unfold rstrip. by rewrite reverse_app. Qed.

Lemma rstrip_decompose s :
  ∃ sp, Forall (λ c, isspace c = true) sp ∧ s = rstrip s ++ sp.
Proof.
  destruct (lstrip_decompose (reverse s)) as (sp & Hsp & E).
  exists (reverse sp). split; [by apply Forall_reverse|].
  unfold rstrip. rewrite <-reverse_app, <-E. by rewrite reverse_involutive.
Qed.

Lemma strip_nil_or_trimmed s : strip s = [] ∨ trimmed (strip s).
Proof.
  destruct (strip s) as [|c w] eqn:E; [by left|]. right. split.
  - unfold strip in E. destruct (rstrip_decompose (lstrip s)) as (sp & _ & E').
    rewrite E in E'. destruct (lstrip_nil_or_head s) as [H|H].
    + by rewrite H in E'.
    + rewrite E' in H. exact H.
  - rewrite <-E. unfold strip, rstrip. rewrite reverse_involutive.
    destruct (lstrip_nil_or_head (reverse (lstrip s))) as [H|H]; [|done].
    unfold strip, rstrip in E. by rewrite H in E.
Qed.

Lemma strip_trimmed w : trimmed w → strip w = w.
Proof.
  intros [H1 H2]. unfold strip.
  rewrite <-(app_nil_r w) at 1. rewrite lstrip_head_ok, app_nil_r by done.
  by apply (rstrip_last_ok []).
Qed.

Lemma extract_text_nil_or_trimmed e :
  extract_text e = [] ∨ trimmed (extract_text e).
Proof.
  unfold extract_text. destruct (is_math_element e); [by left|].
  apply strip_nil_or_trimmed.
Qed.

Lemma truthy_strip_nil_or_trimmed t :
  t = [] ∨ trimmed t → truthy (strip t) = bool_decide (t ≠ []).
Proof.
  intros [->|H]; [done|]. rewrite strip_trimmed by done.
  destruct t; [by destruct H|done].
Qed.

Lemma join_trimmed (ws : list str) :
  ws ≠ [] → Forall trimmed ws → trimmed (join space ws).
Proof.
  intros Hne Hws. induction Hws as [|w ws [H1 H2] Hws IH]; [done|].
  destruct ws as [|w' ws]; [done|].
  change (join space (w :: w' :: ws))
    with (w ++ space ++ join space (w' :: ws)).
  destruct IH as [_ IH2]; [done|]. split.
  - destruct w; [done|]. exact H1.
  - rewrite !reverse_app.
    destruct (reverse (join space (w' :: ws))); [done|]. exact IH2.
Qed.

Lemma concat_with_space (ws : list str) :
  ws ≠ [] → concat ((λ w, w ++ space) <$> ws) = join space ws ++ space.
Proof.
  induction ws as [|w ws IH]; [done|]. intros _.
  destruct ws as [|w' ws]; [by rewrite fmap_cons; simpl; rewrite app_nil_r|].
  rewrite fmap_cons. cbn [concat]. rewrite IH by done.
  change (join space (w :: w' :: ws))
    with (w ++ space ++ join space (w' :: ws)).
  by rewrite <-!app_assoc.
Qed.

Lemma strip_concat_with_space (ws : list str) :
  Forall trimmed ws → strip (concat ((λ w, w ++ space) <$> ws)) = join space ws.
Proof.
  intros Hws. destruct (decide (ws = [])) as [->|Hne]; [done|].
  rewrite concat_with_space by done.
  destruct (join_trimmed ws Hne Hws) as [H1 H2].
  unfold strip. rewrite lstrip_head_ok, rstrip_space by done.
  by apply (rstrip_last_ok []).
Qed.

(** The text of a cell is the extracted texts of its paragraphs that are
    not empty, joined by single spaces. *)
Lemma cell_text_join cell :
  cell_text cell
  = join space (filter (λ t, t ≠ [])
                  ((λ para, extract_text para.2) <$> findall w_p cell)).
Proof.
  unfold cell_text.
  set (ts := (λ para, extract_text para.2) <$> findall w_p cell).
  assert (Forall (λ t, t = [] ∨ trimmed t) ts) as Hts.
  { apply Forall_fmap, Forall_forall. intros x _.
    apply extract_text_nil_or_trimmed. }
  rewrite <-strip_concat_with_space.
  2:{ clear -Hts. induction Hts as [|t ts Ht _ IH]; [constructor|].
      rewrite filter_cons. destruct decide; [|done].
      constructor; [by destruct Ht|done]. }
  f_equal.
  assert (∀ acc,
    foldl (λ acc para,
             let text := extract_text para.2 in
             if truthy (strip text) then acc ++ text ++ space else acc)
          acc (findall w_p cell)
    = acc ++ concat ((λ w, w ++ space) <$> filter (λ t, t ≠ []) ts)) as H.
  { unfold ts. clear Hts ts.
    induction (findall w_p cell) as [|para l IH]; intros acc.
    - by rewrite app_nil_r.
    - rewrite foldl_step, fmap_cons, filter_cons. cbn zeta.
      rewrite truthy_strip_nil_or_trimmed
        by apply extract_text_nil_or_trimmed.
      rewrite IH. destruct decide as [Hne|He].
      + rewrite bool_decide_eq_true_2 by done.
        rewrite fmap_cons. cbn [concat]. by rewrite <-!app_assoc.
      + by rewrite bool_decide_eq_false_2. }
  apply (H []).
Qed.

(** ** Sub-trees of trees of the same shape *)

Lemma flat_imap_skel_heads n cs y :
  y ∈ flat_imap (λ i c, under i <$> skel c) n cs →
  ∃ j q, y.1 = j :: q ∧ n ≤ j.
Proof.
  intros (j & c & _ & H)%elem_of_flat_imap.
  apply list_elem_of_fmap in H as (z & -> & _).
  exists (n + j), z.1. split; [done|lia].
Qed.

Lemma filter_none {A} (P : A → Prop) `{!∀ x, Decision (P x)} (l : list A) :
  (∀ x, x ∈ l → ¬ P x) → filter P l = [].
Proof.
  induction l as [|x l IH]; intros Hl; [done|].
  rewrite filter_cons_False by (apply Hl, list_elem_of_here).
  apply IH. intros y Hy. by apply Hl, list_elem_of_further.
Qed.

Lemma skel_nonempty e : skel e ≠ [].
Proof. by rewrite skel_unfold. Qed.

Lemma flat_imap_skel_inj n cs cs' :
  flat_imap (λ i c, under i <$> skel c) n cs
  = flat_imap (λ i c, under i <$> skel c) n cs' →
  Forall2 (λ c c', skel c = skel c') cs cs'.
Proof.
  revert n cs'. induction cs as [|c cs IH]; intros n [|c' cs'] E.
  - constructor.
  - simpl in E. pose proof (skel_nonempty c').
    destruct (skel c'); [done|]. by rewrite fmap_cons in E.
  - simpl in E. pose proof (skel_nonempty c).
    destruct (skel c); [done|]. by rewrite fmap_cons in E.
  - simpl in E.
    set (P := λ y : path * string, head y.1 = Some n).
    assert (∀ l : list (path * string), filter P (under n <$> l) = under n <$> l)
      as Hin.
    { intros l. induction l as [|y l IHl]; [done|].
      rewrite fmap_cons, filter_cons_True by done. by rewrite IHl. }
    assert (∀ ds, filter P (flat_imap (λ i c, under i <$> skel c) (S n) ds) = [])
      as Hout.
    { intros ds. apply filter_none. intros y Hy.
      apply flat_imap_skel_heads in Hy as (j & q & Ey & Hj).
      intros HP. unfold P in HP. destruct y as [yp yt]. simpl in *.
      subst yp. simpl in HP. injection HP as ->. lia. }
    pose proof (f_equal (filter P) E) as EP.
    rewrite !filter_app, !Hin, !Hout, !app_nil_r in EP.
    assert (skel c = skel c') as Ec.
    { assert (Inj (=) (=) (@under string n)) as Hinj.
      { intros [a1 b1] [a2 b2] E'. unfold under in E'. simpl in E'.
        by injection E' as -> ->. }
      apply (inj (fmap (under n))). exact EP. }
    constructor; [done|]. apply (IH (S n)).
    rewrite Ec in E. by apply app_inv_head in E.
Qed.

Lemma skel_get e e' p x :
  skel e = skel e' → get e p = Some x →
  ∃ x', get e' p = Some x' ∧ skel x' = skel x.
Proof.
  revert e e'. induction p as [|i p IH]; intros e e' E; simpl.
  - intros [= <-]. by exists e'.
  - rewrite (skel_unfold e), (skel_unfold e') in E. injection E as _ E.
    apply flat_imap_skel_inj in E.
    destruct (children e !! i) as [c|] eqn:Hc; [|done]. simpl. intros Hx.
    destruct (Forall2_lookup_l _ _ _ _ _ E Hc) as (c' & Hc' & Ec).
    rewrite Hc'. simpl. eapply IH; [exact Ec|exact Hx].
Qed.

(** ** The visit of a cell *)

Lemma assign_app e l1 l2 : assign e (l1 ++ l2) = assign (assign e l1) l2.
Proof. apply foldl_app. Qed.

Lemma text_at_assign_const e l v q :
  (∀ it, it ∈ l → it.2 = v) → q ∈ l.*1 → is_Some (get e q) →
  text_at (assign e l) q = Some v.
Proof.
  intros Hv Hq Hget. induction l as [|it l IH] using rev_ind.
  - by apply elem_of_nil in Hq.
  - rewrite assign_app. unfold assign at 1. simpl.
    destruct (decide (it.1 = q)) as [<-|Hne].
    + rewrite (Hv it) by (apply elem_of_app; right; apply list_elem_of_here).
      apply text_at_set_text_eq, valid_path_skel.
      rewrite skel_assign. by apply valid_path_skel.
    + rewrite text_at_set_text_ne by done.
      apply IH.
      * intros it' Hit'. apply Hv, elem_of_app. by left.
      * rewrite fmap_app, elem_of_app in Hq. destruct Hq as [Hq|Hq]; [done|].
        apply list_elem_of_fmap in Hq as (it' & -> & Hit').
        apply list_elem_of_singleton in Hit' as ->. done.
Qed.

Lemma clear_texts_assign p cl y :
  get cl p = Some y →
  clear_texts p cl
  = assign cl ((λ a, (p ++ a, Some [])) <$> (iter_tag w_t y).*1).
Proof.
  intros Hy. unfold clear_texts, assign. rewrite Hy.
  rewrite <-list_fmap_compose, foldl_fmap. reflexivity.
Qed.

Lemma clear_fold cell cell1 rest :
  skel cell1 = skel cell →
  (∀ para, para ∈ rest → get cell para.1 = Some para.2) →
  foldl (λ cl para, clear_texts para.1 cl) cell1 rest
  = assign cell1 (clearings rest).
Proof.
  revert cell1. induction rest as [|para rest IH]; intros cell1 Hs Hr.
  - done.
  - rewrite foldl_step. unfold clearings. rewrite bind_cons, assign_app.
    destruct (skel_get cell cell1 para.1 para.2) as (y' & Hy' & Es);
      [done|apply Hr, list_elem_of_here|].
    rewrite (clear_texts_assign _ _ y') by done.
    rewrite (iter_tag_paths w_t y'), Es, <-iter_tag_paths.
    apply IH.
    + by rewrite skel_assign.
    + intros para' H. apply Hr. by apply list_elem_of_further.
Qed.

Lemma clearings_spec rest it :
  it ∈ clearings rest ↔
  ∃ para t, para ∈ rest ∧ t ∈ iter_tag w_t para.2 ∧
            it = (para.1 ++ t.1, Some []).
Proof.
  unfold clearings. rewrite list_elem_of_bind. split.
  - intros (para & Hit & Hpara).
    apply list_elem_of_fmap in Hit as (a & -> & Ha).
    apply list_elem_of_fmap in Ha as (t & -> & Ht). by exists para, t.
  - intros (para & t & Hpara & Ht & ->). exists para. split; [|done].
    apply list_elem_of_fmap. exists t.1. split; [done|].
    apply list_elem_of_fmap. by exists t.
Qed.

Lemma text_at_put x p cell y q :
  get cell p = Some y →
  text_at (put x p cell) q
  = if decide (p `prefix_of` q) then text_at x (drop (length p) q)
    else text_at cell q.
Proof.
  intros Hy. unfold text_at, put. destruct decide as [[r ->]|Hn].
  - rewrite (get_modify_below _ _ _ _ y) by done.
    by rewrite drop_app_length.
  - apply node_modify_other; [done|]. intros [r ->]. apply Hn. by exists r.
Qed.

Lemma cell_text_paragraphs cell : cell_text cell ≠ [] → findall w_p cell ≠ [].
Proof. rewrite cell_text_join. intros H E. by rewrite E in H. Qed.

Lemma truthy_true s : truthy s = true ↔ s ≠ [].
Proof. by destruct s. Qed.

Lemma process_cell_spec c lang o cell s :
  let paras := findall w_p cell in
  let unit := cell_text cell in
  let r := translate c unit lang (calls s) in
  let out := process_cell c lang o cell s in
  unit = join space (filter (λ t, t ≠ [])
                       ((λ para, extract_text para.2) <$> paras)) ∧
  (unit = [] → out = (cell, s)) ∧
  (unit ≠ [] →
   out.2 = mkSession r.2 (log s ++ [mkRequest o unit lang]) ∧
   (r.1 = None ∨ r.1 = Some [] ∨ r.1 = Some error_sentinel → out.1 = cell) ∧
   (∀ translated,
      r.1 = Some translated → translated ≠ [] →
      translated ≠ error_sentinel →
      ∃ p0 rest p0',
        paras = p0 :: rest ∧
        update_text p0.2 (Some translated) = Ok p0' ∧
        (∀ para t, para ∈ rest → t ∈ iter_tag w_t para.2 →
                   text_at out.1 (para.1 ++ t.1) = Some (Some [])) ∧
        (∀ q, (∀ para, para ∈ rest → ¬ para.1 `prefix_of` q) →
              text_at out.1 q
              = if decide (p0.1 `prefix_of` q)
                then text_at p0' (drop (length p0.1) q)
                else text_at cell q))).
Proof.
  intros paras unit r out. split; [apply cell_text_join|].
  unfold out, process_cell. fold unit. split.
  - by intros ->.
  - intros Hne. apply truthy_true in Hne as Ht. rewrite Ht.
    unfold submit. fold r. cbn [fst snd].
    assert (∀ x y : Element * Session, x.2 = y.2 → x.1 = y.1 → x = y) as Hpair.
    { by intros [??] [??]; simpl; intros -> ->. }
    destruct (r.1) as [translated|] eqn:Er; [|by split_and!].
    destruct (truthy translated) eqn:Ett; cycle 1.
    { cbn [andb]. split_and!; [done|done|].
      intros t [= <-] Hn. by destruct translated. }
    unfold is_error. destruct (bool_decide_reflect (translated = error_sentinel))
      as [->|Hns]; cbn [andb negb].
    { split_and!; [done|done|]. by intros t [= <-]. }
    fold paras. destruct paras as [|p0 rest] eqn:Ep.
    { by apply cell_text_paragraphs in Hne. }
    destruct (update_text_some p0.2 translated) as [p0' Hp0'].
    rewrite Hp0'. cbn [fst snd]. split; [done|]. split.
    { intros [H|[[= ->]|[= ->]]]; done. }
    intros t [= <-] _ _. exists p0, rest, p0'.
    assert (∀ para, para ∈ p0 :: rest → get cell para.1 = Some para.2) as Hg.
    { intros [q y] Hq. rewrite <-Ep in Hq. unfold paras in Hq.
      by apply elem_of_findall in Hq as (_ & ? & _). }
    assert (skel (put p0' p0.1 cell) = skel cell) as Hs.
    { apply skel_modify. intros x Hx.
      rewrite (Hg p0) in Hx by apply list_elem_of_here. injection Hx as <-.
      by eapply update_text_leaves. }
    rewrite (clear_fold cell)
      by (done || (intros; apply Hg; by apply list_elem_of_further)).
    split_and!; [done|done| |].
    + intros para t' Hpara Ht'. apply text_at_assign_const.
      * intros it (?&?&_&_&->)%clearings_spec. done.
      * apply list_elem_of_fmap. exists (para.1 ++ t'.1, Some []).
        split; [done|]. apply clearings_spec. by exists para, t'.
      * apply valid_path_skel. rewrite Hs. apply valid_path_skel.
        rewrite get_app, (Hg para) by (by apply list_elem_of_further).
        simpl. exists t'.2. apply iter_get.
        apply list_elem_of_filter in Ht' as [_ Ht']. by destruct t'.
    + intros q Hq. rewrite text_at_assign_other.
      * apply (text_at_put _ _ _ p0.2), Hg, list_elem_of_here.
      * intros (it & -> & Hit)%list_elem_of_fmap.
        apply clearings_spec in Hit as (para & t' & Hpara & _ & ->).
        apply (Hq para Hpara). by exists t'.1.
Qed.

Lemma process_cell_log c lang o cell s :
  log (process_cell c lang o cell s).2 = log s ∨
  log (process_cell c lang o cell s).2
  = log s ++ [mkRequest o (cell_text cell) lang].
Proof.
  destruct (process_cell_spec c lang o cell s) as (_ & H0 & H1).
  destruct (decide (cell_text cell = [])) as [E|E].
  - left. by rewrite H0.
  - right. destruct (H1 E) as (-> & _). done.
Qed.

Lemma process_table_log c lang tbl table s :
  ∃ new vs,
    log (process_table c lang tbl table s).2 = log s ++ new ∧
    vs `sublist_of` cell_visits table ∧
    req_origin <$> new = (λ v, FromCell tbl v.1 v.2) <$> vs.
Proof.
  unfold process_table. generalize (cell_visits table). intros l.
  revert table s. induction l as [|v l IH]; intros table s.
  - exists [], []. by rewrite app_nil_r.
  - rewrite foldl_step.
    set (acc := visit_cell c lang tbl v.1 v.2 (table, s)).
    destruct (IH acc.1 acc.2) as (new & vs & Hlog & Hsub & Ho).
    replace (acc.1, acc.2) with acc in Hlog by by destruct acc.
    assert (log acc.2 = log s ∨
            log acc.2 = log s ++ [mkRequest (FromCell tbl v.1 v.2)
                                    (req_text (mkRequest (FromCell tbl v.1 v.2)
                                       (match get table (v.1 ++ v.2) with
                                        | Some cur => cell_text cur
                                        | None => [] end) lang)) lang])
      as [E|E].
    { unfold acc, visit_cell. simpl.
      destruct (get table (v.1 ++ v.2)) as [cur|]; [|by left]. simpl.
      apply process_cell_log. }
    + exists new, vs. split_and!; [by rewrite Hlog, E|by apply sublist_cons|done].
    + eexists (_ :: new), (v :: vs). split_and!.
      * by rewrite Hlog, E, <-app_assoc.
      * by apply sublist_skip.
      * by rewrite !fmap_cons, Ho.
Qed.




(** * Further properties of the pipeline *)

(** ** Only the text of [w:t] elements changes *)

Lemma node_modify_outside {B} (h : Element → B) f p q e :
  (∀ a b c d cs cs', length cs = length cs' →
                     h (mkElement a b c d cs) = h (mkElement a b c d cs')) →
  ¬ p `prefix_of` q →
  h <$> get (modify f p e) q = h <$> get e q.
Proof.
  intros Hh. revert e q. induction p as [|i p IH]; intros e q Hq.
  - destruct Hq. apply prefix_nil.
  - destruct q as [|j q]; simpl.
    + f_equal. destruct e. apply Hh. by rewrite length_alter.
    + rewrite list_lookup_alter. destruct decide as [<-|]; [|done].
      destruct (children e !! i) as [c|]; simpl; [|done].
      apply IH. intros H. apply Hq. by apply prefix_cons.
Qed.

Lemma frame_refl e : frame e e.
Proof. by intros q. Qed.

Lemma frame_tag e e' q : frame e e' → tag <$> get e' q = tag <$> get e q.
Proof.
  intros H. destruct (H q) as [R _].
  destruct (get e' q), (get e q); simpl in *; [|done..].
  unfold rigid in R. by injection R as -> _ _ _.
Qed.

Lemma frame_trans e1 e2 e3 : frame e1 e2 → frame e2 e3 → frame e1 e3.
Proof.
  intros H12 H23 q. destruct (H12 q) as [R12 T12], (H23 q) as [R23 T23].
  split; [by rewrite R23|]. intros Ht. rewrite T23, T12; [done|done|].
  by rewrite (frame_tag _ _ _ H12).
Qed.

(** A change confined to the sub-tree at [p] that is a [frame] there is a
    [frame] of the whole tree. *)
Lemma frame_put e p x x' :
  get e p = Some x → frame x x' → frame e (put x' p e).
Proof.
  intros Hx Hf q. unfold put.
  destruct (decide (p `prefix_of` q)) as [[r ->]|Hn].
  - rewrite (get_modify_below _ _ _ _ x) by done.
    rewrite get_app, Hx. apply Hf.
  - split; [|intros _]; (apply node_modify_outside; [|done]).
    + intros a b c d cs cs' E. unfold rigid. simpl. by rewrite E.
    + done.
Qed.

Lemma frame_set_text e p v :
  tag <$> get e p = Some w_t → frame e (set_text e p v).
Proof.
  intros Ht. destruct (get e p) as [x|] eqn:Hx; [|done].
  injection Ht as Ht.
  assert (set_text e p v = put (with_text v x) p e) as ->.
  { unfold set_text, put. clear Ht. revert e Hx.
    induction p as [|i p IH]; intros e; simpl.
    - by intros [= ->].
    - intros H. f_equal. apply list_eq. intros j.
      rewrite !list_lookup_alter. destruct decide as [<-|]; [|done].
      destruct (children e !! i) as [c|]; simpl in *; [|done].
      f_equal. by apply IH. }
  apply (frame_put e p x); [done|]. intros [|j r].
  - simpl. split; [done|]. intros H. by rewrite Ht in H.
  - by destruct x.
Qed.

Lemma frame_foldl_set_text {A} e (l : list A) (addr : A → path)
    (val : Element → A → option str) :
  (∀ a, a ∈ l → tag <$> get e (addr a) = Some w_t) →
  frame e (foldl (λ el a, set_text el (addr a) (val el a)) e l).
Proof.
  intros Hl. induction l as [|a l IH] using rev_ind; [apply frame_refl|].
  rewrite foldl_app. simpl.
  assert (frame e (foldl (λ el a, set_text el (addr a) (val el a)) e l)) as Hf.
  { apply IH. intros b Hb. apply Hl, elem_of_app. by left. }
  eapply frame_trans; [exact Hf|]. apply frame_set_text.
  rewrite (frame_tag _ _ _ Hf). apply Hl, elem_of_app. right.
  apply list_elem_of_here.
Qed.

Lemma iter_tag_tag t e x : x ∈ iter_tag t e → tag <$> get e x.1 = Some t.
Proof.
  intros [Ht Hx]%list_elem_of_filter. destruct x as [p y]. simpl in *.
  rewrite (iter_get _ _ _ Hx). simpl. by rewrite Ht.
Qed.

Lemma update_text_frame element translated e' :
  update_text element translated = Ok e' → frame element e'.
Proof.
  unfold update_text. destruct translated as [translated|]; [|done].
  destruct (negb _); [intros [= <-]; apply frame_refl|].
  set (body := foldl _ element (enumerate _)).
  assert (frame element body) as Hbody.
  { unfold body, enumerate.
    set (n := length (iter_tag w_t element)).
    set (words := split translated).
    set (k := Nat.max 1 (length words / n)).
    rewrite (foldl_ext_in _
      (λ el it, set_text el (it.2.1 : path)
                  ((λ _ it, if it.1 * k <? length words
                            then Some (join space
                                   (slice (it.1 * k)
                                      (if it.1 <? n - 1
                                       then Some (it.1 * k + k) else None)
                                      words))
                            else Some []) el it))).
    - apply (frame_foldl_set_text element _ (λ it, it.2.1)).
      intros [i t] Hit. apply list_elem_of_lookup_1 in Hit as [j Hj].
      apply list_lookup_imap_Some in Hj as (t' & Ht' & [= _ <-]).
      simpl. apply iter_tag_tag. by eapply list_elem_of_lookup_2.
    - intros el it _. simpl. by destruct (_ <? _). }
  clearbody body.
  destruct (iter_tag w_t element) as [|a [|b l]] eqn:E.
  - intros [= <-]. apply frame_refl.
  - intros [= <-]. apply frame_set_text, (iter_tag_tag w_t).
    rewrite E. apply list_elem_of_here.
  - by intros [= <-].
Qed.

Lemma paragraph_step_frame c lang root s q root' s' :
  paragraph_step c lang (Ok (root, s)) q = Ok (root', s') → frame root root'.
Proof.
  intros [(-> & _)|(x & x' & r & Hx & _ & Hu & -> & _)]%paragraph_step_inv.
  - apply frame_refl.
  - eapply frame_put; [done|]. by eapply update_text_frame.
Qed.

Lemma paragraph_pass_frame c lang root s root' s' :
  paragraph_pass c lang root s = Ok (root', s') → frame root root'.
Proof.
  unfold paragraph_pass. generalize (findall w_p root).*1. intros l.
  revert root s. induction l as [|q l IH]; intros root s.
  - intros [= <- <-]. apply frame_refl.
  - rewrite foldl_step.
    destruct (paragraph_step c lang (Ok (root, s)) q) as [[r1 s1]|e] eqn:E;
      [|by rewrite foldl_paragraph_step_raise].
    intros H. eapply frame_trans; [by eapply paragraph_step_frame|].
    by eapply IH.
Qed.

Lemma clear_texts_frame p cl : frame cl (clear_texts p cl).
Proof.
  unfold clear_texts. destruct (get cl p) as [para|] eqn:Hp;
    [|apply frame_refl].
  apply (frame_foldl_set_text cl _ (λ t, p ++ t.1) (λ _ _, Some [])).
  intros t Ht. rewrite get_app, Hp. simpl. by apply iter_tag_tag.
Qed.

Lemma process_cell_frame c lang o cell s :
  frame cell (process_cell c lang o cell s).1.
Proof.
  unfold process_cell. destruct (truthy _); [|apply frame_refl].
  destruct (submit _ _ _ _ _).1 as [translated|]; [|apply frame_refl].
  destruct (_ && _); [|apply frame_refl].
  destruct (findall w_p cell) as [|p0 rest] eqn:Ep; [apply frame_refl|].
  destruct (update_text p0.2 (Some translated)) as [p0'|] eqn:Hu;
    [|apply frame_refl].
  simpl. eapply frame_trans.
  - eapply (frame_put cell p0.1 p0.2); [|by eapply update_text_frame].
    assert (p0 ∈ findall w_p cell) as H by (rewrite Ep; apply list_elem_of_here).
    destruct p0 as [q y]. by apply elem_of_findall in H as (_ & ? & _).
  - generalize (put p0' p0.1 cell). intros cl. clear.
    revert cl. induction rest as [|para rest IH]; intros cl;
      [apply frame_refl|].
    rewrite foldl_step. eapply frame_trans; [apply clear_texts_frame|apply IH].
Qed.

Lemma visit_cell_frame c lang tbl row cell acc :
  frame acc.1 (visit_cell c lang tbl row cell acc).1.
Proof.
  unfold visit_cell. destruct (get acc.1 (row ++ cell)) as [cur|] eqn:E;
    [|apply frame_refl].
  simpl. eapply frame_put; [done|apply process_cell_frame].
Qed.

Lemma process_table_frame c lang tbl table s :
  frame table (process_table c lang tbl table s).1.
Proof.
  unfold process_table. generalize (cell_visits table). intros l.
  revert table s. induction l as [|v l IH]; intros table s;
    [apply frame_refl|].
  rewrite foldl_step.
  eapply frame_trans; [apply (visit_cell_frame c lang tbl v.1 v.2 (table, s))|].
  destruct (visit_cell c lang tbl v.1 v.2 (table, s)) as [t1 s1]. apply IH.
Qed.

Lemma table_pass_frame c lang root s :
  frame root (table_pass c lang root s).1.
Proof.
  unfold table_pass. generalize (findall w_tbl root).*1. intros l.
  revert root s. induction l as [|p l IH]; intros root s;
    [apply frame_refl|].
  rewrite foldl_step.
  assert (frame root (table_step c lang (root, s) p).1) as Hstep.
  { unfold table_step. simpl.
    destruct (get root p) as [table|] eqn:E; [|apply frame_refl].
    simpl. eapply frame_put; [done|apply process_table_frame]. }
  destruct (table_step c lang (root, s) p) as [r1 s1].
  eapply frame_trans; [exact Hstep|apply IH].
Qed.

(** Both passes leave every element where it is, with its tag, attributes,
    tail and number of children, and change no text other than the text of
    [w:t] elements. *)
Theorem translate_tree_frame c lang root s root' s' :
  translate_tree c lang root s = Ok (root', s') →
  ∀ q,
    tag <$> get root' q = tag <$> get root q ∧
    attrib <$> get root' q = attrib <$> get root q ∧
    tail <$> get root' q = tail <$> get root q ∧
    (length ∘ children) <$> get root' q = (length ∘ children) <$> get root q ∧
    (tag <$> get root q ≠ Some w_t →
     text <$> get root' q = text <$> get root q).
Proof.
  unfold translate_tree.
  destruct (paragraph_pass c lang root s) as [[root1 s1]|e] eqn:E; [|done].
  intros [= H]. assert (frame root root') as Hf.
  { eapply frame_trans; [by eapply paragraph_pass_frame|].
    pose proof (table_pass_frame c lang root1 s1) as Ht.
    by rewrite H in Ht. }
  intros q. destruct (Hf q) as [R T]. split_and!; [| | | |exact T];
    destruct (get root' q), (get root q); simpl in *; try done;
    unfold rigid in R; injection R as E1 E2 E3 E4; congruence.
Qed.

Lemma translate_tree_frame_witness :
  ∃ root',
    text <$> get root' [0; 0; 0; 0; 0; 0]
    = text <$> get table_document [0; 0; 0; 0; 0; 0].
Proof.
  edestruct (translate_tree_frame (default_client backend_echo)
               (lit "English") table_document new_session)
    as (_ & _ & _ & _ & Htext).
  - vm_compute. reflexivity.
  - eexists. apply Htext. vm_compute. discriminate.
Defined.

(** ** Documents without text *)

Lemma put_get e p x : get e p = Some x → put x p e = e.
Proof.
  unfold put. revert e. induction p as [|i p IH]; intros e; simpl.
  - by intros [= ->].
  - intros H. destruct e as [a b c d cs]. simpl in *. f_equal.
    apply list_eq. intros j. rewrite list_lookup_alter.
    destruct decide as [<-|]; [|done].
    destruct (cs !! i) as [y|]; simpl in *; [|done]. f_equal. by apply IH.
Qed.

Lemma findall_below t root a cur q y :
  get root a = Some cur → (q, y) ∈ findall t cur → (a ++ q, y) ∈ findall t root.
Proof.
  intros Ha (Hq & Hy & Ht)%elem_of_findall. apply elem_of_findall.
  split_and!; [by destruct a, q|by rewrite get_app, Ha|done].
Qed.

Lemma cell_text_blank cell :
  (∀ q y, (q, y) ∈ findall w_p cell → extract_text y = []) →
  cell_text cell = [].
Proof.
  intros H. rewrite cell_text_join.
  rewrite (filter_none _ _); [done|].
  intros t (para & -> & Hpara)%list_elem_of_fmap Ht.
  apply Ht. destruct para as [q y]. by eapply H.
Qed.

Lemma paragraph_pass_blank c lang root s :
  (∀ p x, (p, x) ∈ findall w_p root → extract_text x = []) →
  paragraph_pass c lang root s = Ok (root, s).
Proof.
  intros H. unfold paragraph_pass.
  assert (∀ p, p ∈ (findall w_p root).*1 →
               ∀ x, get root p = Some x → extract_text x = []) as Hl.
  { intros p ([q y] & -> & Hq)%list_elem_of_fmap x Hx. simpl in Hx.
    apply (H q). apply elem_of_findall in Hq as (? & Hy & ?).
    rewrite Hx in Hy. injection Hy as ->. by apply elem_of_findall. }
  clear H. induction (findall w_p root).*1 as [|p l IH]; [done|].
  rewrite foldl_step. unfold paragraph_step at 2.
  destruct (get root p) as [x|] eqn:Hx.
  - rewrite (Hl p (list_elem_of_here _ _) x Hx). simpl.
    apply IH. intros q Hq. by apply Hl, list_elem_of_further.
  - apply IH. intros q Hq. by apply Hl, list_elem_of_further.
Qed.

Lemma process_table_blank c lang tbl table s :
  (∀ p x, (p, x) ∈ findall w_p table → extract_text x = []) →
  process_table c lang tbl table s = (table, s).
Proof.
  intros H. unfold process_table.
  induction (cell_visits table) as [|v l IH]; [done|].
  rewrite foldl_step.
  assert (visit_cell c lang tbl v.1 v.2 (table, s) = (table, s)) as ->; [|done].
  unfold visit_cell. simpl.
  destruct (get table (v.1 ++ v.2)) as [cur|] eqn:E; [|done].
  destruct (process_cell_spec c lang (FromCell tbl v.1 v.2) cur s)
    as (_ & Hnil & _).
  rewrite Hnil.
  - simpl. by rewrite put_get.
  - apply cell_text_blank. intros q y Hq. apply (H (v.1 ++ v.2 ++ q)).
    rewrite app_assoc. by eapply findall_below.
Qed.

Lemma table_pass_blank c lang root s :
  (∀ p x, (p, x) ∈ findall w_p root → extract_text x = []) →
  table_pass c lang root s = (root, s).
Proof.
  intros H. unfold table_pass.
  induction (findall w_tbl root).*1 as [|p l IH]; [done|].
  rewrite foldl_step.
  assert (table_step c lang (root, s) p = (root, s)) as ->; [|done].
  unfold table_step. simpl.
  destruct (get root p) as [table|] eqn:E; [|done].
  rewrite process_table_blank.
  - simpl. by rewrite put_get.
  - intros q y Hq. apply (H (p ++ q)). by eapply findall_below.
Qed.

(** A document in which every paragraph has an empty extracted text (it is
    blank or holds a formula) comes out of the two passes as it went in: no
    unit is submitted and the backend is not called, whatever the client. *)
Theorem translate_tree_blank c lang root s :
  (∀ p x, (p, x) ∈ findall w_p root → extract_text x = []) →
  translate_tree c lang root s = Ok (root, s).
Proof.
  intros H. unfold translate_tree.
  by rewrite paragraph_pass_blank, table_pass_blank.
Qed.

Lemma translate_tree_blank_witness :
  translate_tree (mkClient backend_down 0) (lit "English")
    (document [para [run (lit "  ")]; para [oMath (lit "x")]]) new_session
  = Ok (document [para [run (lit "  ")]; para [oMath (lit "x")]], new_session).
Proof.
  apply translate_tree_blank. intros p x Hp.
  assert (findall w_p (document [para [run (lit "  ")]; para [oMath (lit "x")]])
          = [([0; 0], para [run (lit "  ")]);
             ([0; 1], para [oMath (lit "x")])]) as E
    by (vm_compute; reflexivity).
  rewrite E in Hp.
  repeat (apply elem_of_cons in Hp as [[= _ ->]|Hp]; [vm_compute; reflexivity|]).
  by apply elem_of_nil in Hp.
Defined.

(** ** The retry loop, continued *)

Lemma translate_loop_first_success c fuel attempt text lang n j r :
  j < fuel →
  (∀ i, i < j → translator c (n + i) text lang = None) →
  translator c (n + j) text lang = Some r →
  (attempt + Z.of_nat fuel = max_retries c)%Z →
  translate_loop c fuel attempt text lang n = (Some r, n + j + 1).
Proof.
  revert fuel attempt n. induction j as [|j IH]; intros fuel attempt n Hj Hf Hr He.
  - destruct fuel as [|fuel]; [lia|]. simpl.
    rewrite Nat.add_0_r in Hr. rewrite Hr. f_equal. lia.
  - destruct fuel as [|fuel]; [lia|]. simpl.
    pose proof (Hf 0) as H0. rewrite Nat.add_0_r in H0. rewrite H0 by lia.
    destruct (_ =? _)%Z eqn:E; [apply Z.eqb_eq in E; lia|].
    rewrite (IH fuel (attempt + 1)%Z (S n)); [f_equal; lia|lia| | |lia].
    + intros i Hi. replace (S n + i) with (n + S i) by lia. apply Hf. lia.
    + by replace (S n + j) with (n + S j) by lia.
Qed.

(** [translate] returns the answer of the first attempt that does not
    raise, after one backend call for each failed attempt and one for the
    successful one, when that attempt is among the first [max_retries]. *)
Theorem translate_first_success c text lang n j r :
  (Z.of_nat j < max_retries c)%Z →
  (∀ i, i < j → translator c (n + i) text lang = None) →
  translator c (n + j) text lang = Some r →
  translate c text lang n = (Some r, n + j + 1).
Proof.
  intros Hj Hf Hr. apply translate_loop_first_success; [lia|done|done|lia].
Qed.

Lemma translate_first_success_witness :
  translate (default_client (λ n text _, if n <? 2 then None else Some text))
            (lit "Bonjour") (lit "English") 0
  = (Some (lit "Bonjour"), 3).
Proof.
  apply (translate_first_success
           (default_client (λ n text _, if n <? 2 then None else Some text))
           (lit "Bonjour") (lit "English") 0 2 (lit "Bonjour")).
  - simpl. lia.
  - intros i Hi. simpl. by apply Nat.ltb_lt in Hi as ->.
  - reflexivity.
Defined.

(** ** The cost of a run *)

Lemma within_budget_refl m s : within_budget m s s.
Proof. unfold within_budget. lia. Qed.

Lemma within_budget_trans m s1 s2 s3 :
  within_budget m s1 s2 → within_budget m s2 s3 → within_budget m s1 s3.
Proof. unfold within_budget. nia. Qed.

Lemma submit_budget c o text lang s :
  within_budget (Z.to_nat (max_retries c)) s (submit c o text lang s).2.
Proof.
  unfold within_budget, submit. simpl. rewrite length_app. simpl.
  pose proof (translate_calls c text lang (calls s)). nia.
Qed.

Lemma paragraph_pass_budget c lang root s root' s' :
  paragraph_pass c lang root s = Ok (root', s') →
  within_budget (Z.to_nat (max_retries c)) s s'.
Proof.
  unfold paragraph_pass. generalize (findall w_p root).*1. intros l.
  revert root s. induction l as [|q l IH]; intros root s.
  - intros [= <- <-]. apply within_budget_refl.
  - rewrite foldl_step.
    destruct (paragraph_step c lang (Ok (root, s)) q) as [[r1 s1]|e] eqn:E;
      [|by rewrite foldl_paragraph_step_raise].
    intros H. eapply within_budget_trans; [|by eapply IH].
    unfold paragraph_step in E.
    destruct (get root q) as [x|]; [|injection E as <- <-; apply within_budget_refl].
    destruct (truthy _); [|injection E as <- <-; apply within_budget_refl].
    destruct (update_text _ _); [|done]. injection E as <- <-.
    apply submit_budget.
Qed.

Lemma process_cell_budget c lang o cell s :
  within_budget (Z.to_nat (max_retries c)) s (process_cell c lang o cell s).2.
Proof.
  unfold process_cell. destruct (truthy _); [|apply within_budget_refl].
  pose proof (submit_budget c o (cell_text cell) lang s) as H.
  destruct (submit _ _ _ _ _).1; [|done].
  destruct (_ && _); [|done].
  destruct (findall w_p cell); [done|]. by destruct (update_text _ _).
Qed.

Lemma process_table_budget c lang tbl table s :
  within_budget (Z.to_nat (max_retries c)) s
                (process_table c lang tbl table s).2.
Proof.
  unfold process_table. generalize (cell_visits table). intros l.
  revert table s. induction l as [|v l IH]; intros table s;
    [apply within_budget_refl|].
  rewrite foldl_step.
  assert (within_budget (Z.to_nat (max_retries c)) s
            (visit_cell c lang tbl v.1 v.2 (table, s)).2) as Hv.
  { unfold visit_cell. simpl.
    destruct (get table (v.1 ++ v.2)); [|apply within_budget_refl].
    apply process_cell_budget. }
  destruct (visit_cell c lang tbl v.1 v.2 (table, s)) as [t1 s1].
  eapply within_budget_trans; [exact Hv|apply IH].
Qed.

Lemma table_pass_budget c lang root s :
  within_budget (Z.to_nat (max_retries c)) s (table_pass c lang root s).2.
Proof.
  unfold table_pass. generalize (findall w_tbl root).*1. intros l.
  revert root s. induction l as [|p l IH]; intros root s;
    [apply within_budget_refl|].
  rewrite foldl_step.
  assert (within_budget (Z.to_nat (max_retries c)) s
            (table_step c lang (root, s) p).2) as Hstep.
  { unfold table_step. simpl.
    destruct (get root p); [|apply within_budget_refl].
    apply process_table_budget. }
  destruct (table_step c lang (root, s) p) as [r1 s1].
  eapply within_budget_trans; [exact Hstep|apply IH].
Qed.

(** In a run of the two passes the backend is called at most [max_retries]
    times for each unit submitted, and not at all when none is. *)
Theorem translate_tree_budget c lang root s root' s' :
  translate_tree c lang root s = Ok (root', s') →
  length (log s) ≤ length (log s') ∧
  calls s ≤ calls s' ≤
    calls s + Z.to_nat (max_retries c) * (length (log s') - length (log s)).
Proof.
  unfold translate_tree.
  destruct (paragraph_pass c lang root s) as [[root1 s1]|e] eqn:E; [|done].
  intros [= H]. apply (within_budget_trans _ s s1 s').
  - by eapply paragraph_pass_budget.
  - pose proof (table_pass_budget c lang root1 s1) as Ht. by rewrite H in Ht.
Qed.

Lemma translate_tree_budget_witness :
  ∃ root' s',
    translate_tree (default_client backend_down) (lit "English")
                   table_document new_session = Ok (root', s') ∧
    calls s' ≤ calls new_session
               + Z.to_nat 3 * (length (log s') - length (log new_session)).
Proof.
  exists (document [tbl [tr [tc [para [run (lit "error")]]]]]).
  eexists. split; [vm_compute; reflexivity|].
  match goal with
  | |- calls ?s' ≤ _ =>
      destruct (translate_tree_budget (default_client backend_down)
                  (lit "English") table_document new_session
                  (document [tbl [tr [tc [para [run (lit "error")]]]]]) s')
        as (_ & _ & H); [vm_compute; reflexivity|exact H]
  end.
Defined.

(** ** A backend that is down, in the table pass *)

Lemma process_cell_backend_down c lang o cell s :
  (1 ≤ max_retries c)%Z →
  (∀ n text, translator c n text lang = None) →
  (process_cell c lang o cell s).1 = cell.
Proof.
  intros Hc Hdown.
  destruct (process_cell_spec c lang o cell s) as (_ & Hnil & Hsome).
  destruct (decide (cell_text cell = [])) as [E|E]; [by rewrite Hnil|].
  destruct (Hsome E) as (_ & Hsame & _). apply Hsame.
  right. right. by rewrite translate_down.
Qed.

(** With a client that has a positive [max_retries] and a backend whose
    every call raises, [process_table] leaves the table as it is: the
    sentinel is recognised and no cell is rewritten. *)
Theorem process_table_backend_down c lang tbl table s :
  (1 ≤ max_retries c)%Z →
  (∀ n text, translator c n text lang = None) →
  (process_table c lang tbl table s).1 = table.
Proof.
  intros Hc Hdown. unfold process_table.
  generalize (cell_visits table). intros l. revert s.
  induction l as [|v l IH]; intros s; [done|].
  rewrite foldl_step.
  assert ((visit_cell c lang tbl v.1 v.2 (table, s)).1 = table) as Hv.
  { unfold visit_cell. simpl.
    destruct (get table (v.1 ++ v.2)) as [cur|] eqn:E; [|done]. simpl.
    rewrite process_cell_backend_down by done. by apply put_get. }
  destruct (visit_cell c lang tbl v.1 v.2 (table, s)) as [t1 s1].
  simpl in Hv. subst t1. apply IH.
Qed.

Lemma process_table_backend_down_witness :
  (process_table (default_client backend_down) (lit "English") []
                 nested_table new_session).1 = nested_table.
Proof.
  apply process_table_backend_down; [vm_compute; discriminate|done].
Defined.

(** ** The archives around a run *)

Section Archives.

Variable parse : bytes → option Element.
Variable serialize : Element → bytes.


End Archives.


(** ** Extraction after redistribution *)

Lemma existsb_fmap {A B} (f : B → bool) (g : A → B) (l : list A) :
  existsb f (g <$> l) = existsb (λ x, f (g x)) l.
Proof. induction l as [|x l IH]; [done|]. simpl. by rewrite <-IH. Qed.

Lemma is_math_element_skel e e' :
  skel e = skel e' → is_math_element e = is_math_element e'.
Proof.
  assert (∀ x, is_math_element x
               = existsb (λ y : path * string, String.prefix (qname ns_m "") y.2)
                         (skel x)) as H.
  { intros x. unfold skel. by rewrite existsb_fmap. }
  intros E. by rewrite !H, E.
Qed.

Lemma omap_fmap_list {A B C} (g : B → option C) (h : A → B) (l : list A) :
  omap (λ x, g (h x)) l = omap g (h <$> l).
Proof.
  induction l as [|x l IH]; [done|]. cbn. by rewrite IH.
Qed.

Lemma extract_text_leaf_texts e texts :
  is_math_element e = false → leaf_texts e = Some <$> texts →
  extract_text e = strip (concat texts).
Proof.
  intros Hm Hl. unfold extract_text. rewrite Hm. f_equal.
  rewrite (omap_fmap_list (λ x, if text_truthy x then x else None)
             (λ t : path * Element, text t.2)).
  fold (leaf_texts e). rewrite Hl. clear.
  induction texts as [|t texts IH]; [done|].
  destruct t as [|ch t]; cbn; cbn in IH; by rewrite IH.
Qed.

Lemma update_text_one_leaf element translated t0 :
  truthy (strip translated) = true →
  iter_tag w_t element = [t0] →
  update_text element (Some translated)
  = Ok (assign element
          (imap (λ i t, (t.1, Some ((λ _ : nat, translated) i)))
                (iter_tag w_t element))).
Proof.
  intros Ht E. unfold update_text. rewrite Ht, E. reflexivity.
Qed.

Lemma concat_words_trimmed (ws : list str) :
  Forall word ws → strip (concat ws) = concat ws.
Proof.
  intros Hws.
  assert (Forall (λ c, isspace c = false) (concat ws)) as Hc.
  { induction Hws as [|w ws [_ Hw] _ IH]; [constructor|].
    simpl. apply Forall_app. by split. }
  assert (∀ s, Forall (λ c, isspace c = false) s → lstrip s = s) as Hl.
  { intros s Hs. destruct Hs as [|c s Hc' _]; [done|]. simpl. by rewrite Hc'. }
  unfold strip, rstrip. rewrite (Hl (concat ws)) by done.
  rewrite Hl; [by rewrite reverse_involutive|]. by apply Forall_reverse.
Qed.

Lemma join_short (ws : list str) : length ws ≤ 1 → join space ws = concat ws.
Proof.
  destruct ws as [|w [|w' ws]]; simpl; [done| |lia].
  intros _. by rewrite app_nil_r.
Qed.

(** Reading an element back after [update_text]. With one text leaf the
    extracted text is the translated text, trimmed. With [n >= 2] leaves it
    is the leaves' shares put together with nothing between them, so the
    space between the last word of a leaf and the first word of the next is
    lost; when there are no more words than leaves, the extracted text is
    the words of the translated text with no space at all. *)
Theorem extract_after_update element translated :
  is_math_element element = false →
  truthy (strip translated) = true →
  let words := split translated in
  let n := length (iter_tag w_t element) in
  let k := Nat.max 1 (length words / n) in
  (n = 1 →
   ∃ e', update_text element (Some translated) = Ok e' ∧
         extract_text e' = strip translated) ∧
  (2 ≤ n →
   ∃ e', update_text element (Some translated) = Ok e' ∧
         extract_text e'
         = strip (concat ((λ i, join space (share words n k i)) <$> seq 0 n)) ∧
         (length words ≤ n → extract_text e' = concat words)).
Proof.
  intros Hm Ht words n k. split.
  - intros Hn. unfold n in Hn.
    destruct (iter_tag w_t element) as [|t0 [|t1 l]] eqn:E; [done| |done].
    exists (assign element
              (imap (λ i t, (t.1, Some ((λ _ : nat, translated) i)))
                    (iter_tag w_t element))).
    split; [by apply (update_text_one_leaf _ _ t0)|].
    rewrite (extract_text_leaf_texts _ [translated]).
    + simpl. by rewrite app_nil_r.
    + rewrite <-(is_math_element_skel element); [done|]. by rewrite skel_assign.
    + rewrite leaf_texts_assign. by rewrite E.
  - intros Hn.
    exists (assign element
              (imap (λ i t, (t.1, Some (join space (share words n k i))))
                    (iter_tag w_t element))).
    split; [by apply update_text_multi|].
    assert (extract_text
              (assign element
                 (imap (λ i t, (t.1, Some (join space (share words n k i))))
                       (iter_tag w_t element)))
            = strip (concat ((λ i, join space (share words n k i))
                               <$> seq 0 n))) as Hex.
    { apply extract_text_leaf_texts.
      - rewrite <-(is_math_element_skel element); [done|].
        by rewrite skel_assign.
      - by rewrite leaf_texts_assign, <-list_fmap_compose. }
    split; [exact Hex|]. intros Hw. rewrite Hex.
    assert (k = 1) as ->.
    { unfold k. destruct (decide (length words = n)) as [->|Hne].
      - rewrite Nat.div_same by lia. done.
      - rewrite Nat.div_small by lia. done. }
    assert ((λ i, join space (share words n 1 i)) <$> seq 0 n
            = (λ i, concat (share words n 1 i)) <$> seq 0 n) as ->.
    { apply list_fmap_ext. intros _ i _. simpl. apply join_short.
      unfold share, slice. destruct (i <? n - 1) eqn:Ei.
      - rewrite length_take. lia.
      - apply Nat.ltb_ge in Ei. rewrite length_drop. lia. }
    assert (concat ((λ i, concat (share words n 1 i)) <$> seq 0 n)
            = concat words) as ->.
    { transitivity (concat (concat ((λ i, share words n 1 i) <$> seq 0 n)));
        [|by rewrite shares_concat by lia].
      generalize (seq 0 n). intros l.
      induction l as [|i l IH]; [done|].
      rewrite !fmap_cons. simpl. by rewrite IH, concat_app. }
    apply concat_words_trimmed, split_words.
Qed.

Lemma extract_after_update_witness :
  ∃ e',
    update_text (para [run (lit "A "); run (lit "B "); run (lit "C")])
                (Some (lit "X Y Z W")) = Ok e' ∧
    extract_text e' = lit "XYZ W".
Proof.
  destruct (extract_after_update
              (para [run (lit "A "); run (lit "B "); run (lit "C")])
              (lit "X Y Z W")) as (_ & Hmulti);
    [vm_compute; reflexivity..|].
  destruct Hmulti as (e' & He & Hx & _); [vm_compute; lia|].
  exists e'. split; [exact He|]. etrans; [exact Hx|]. vm_compute. reflexivity.
Defined.

(** * config.py *)

(** ** Dictionaries *)

Lemma dict_get_set_eq k v d : dict_get k (dict_set k v d) = Some v.
Proof.
  induction d as [|[k' v'] d IH]; simpl.
  - by rewrite decide_True.
  - destruct (decide (k' = k)) as [->|Hne]; simpl.
    + by rewrite decide_True.
    + by rewrite decide_False.
Qed.

Lemma dict_get_set_ne k k' v d :
  k' ≠ k → dict_get k' (dict_set k v d) = dict_get k' d.
Proof.
  intros Hne. induction d as [|[k'' v''] d IH]; simpl.
  - by rewrite decide_False.
  - destruct (decide (k'' = k)) as [->|Hne']; simpl.
    + by rewrite !decide_False.
    + destruct (decide (k'' = k')); [done|apply IH].
Qed.

Lemma getitem2_done x k1 k2 v :
  getitem2 x k1 k2 = Done v →
  ∃ d s, x = JDict d ∧ dict_get k1 d = Some (JDict s) ∧ dict_get k2 s = Some v.
Proof.
  unfold getitem2, getitem. destruct x as [| | | | |d]; try done. simpl.
  destruct (dict_get k1 d) as [[| | | | |s]|] eqn:E1; try done. simpl.
  destruct (dict_get k2 s) as [w|] eqn:E2; [|done]. intros [= <-].
  by exists d, s.
Qed.

Lemma setitem2_spec x k1 k2 v old :
  getitem2 x k1 k2 = Done old →
  ∃ x', setitem2 x k1 k2 v = Done x' ∧
        getitem2 x' k1 k2 = Done v ∧
        ∀ j1 j2, (j1, j2) ≠ (k1, k2) → getitem2 x' j1 j2 = getitem2 x j1 j2.
Proof.
  intros (d & s & -> & E1 & E2)%getitem2_done.
  exists (JDict (dict_set k1 (JDict (dict_set k2 v s)) d)). split_and!.
  - unfold setitem2, getitem. simpl. by rewrite E1.
  - unfold getitem2, getitem. by rewrite dict_get_set_eq; simpl;
      rewrite dict_get_set_eq.
  - intros j1 j2 Hne. unfold getitem2, getitem.
    destruct (decide (j1 = k1)) as [->|H1].
    + rewrite dict_get_set_eq, E1. simpl.
      rewrite dict_get_set_ne; [done|]. intros ->. by apply Hne.
    + by rewrite dict_get_set_ne.
Qed.

Lemma set_if_given_spec section key x config old :
  getitem2 config section key = Done old →
  ∃ config', set_if_given section key x config = Done config' ∧
             getitem2 config' section key = Done (given x old) ∧
             ∀ j1 j2, (j1, j2) ≠ (section, key) →
                      getitem2 config' j1 j2 = getitem2 config j1 j2.
Proof.
  intros H. destruct x as [v|]; simpl.
  - by apply setitem2_spec with old.
  - by exists config.
Qed.

(** ** Reading the configuration *)

Lemma get_openai_config_unfold f env :
  get_openai_config f env
  = a ←' getitem2 (load_config f) (lit "openai") (lit "api_key");
    b ←' getitem2 (load_config f) (lit "openai") (lit "base_url");
    m ←' getitem2 (load_config f) (lit "openai") (lit "model");
    Done (OpenAIConfig.mk (getenv env "OPENAI_API_KEY" a)
                          (getenv env "OPENAI_BASE_URL" b) m).
Proof. reflexivity. Qed.

Lemma get_azure_openai_config_unfold f env :
  get_azure_openai_config f env
  = e ←' getitem2 (load_config f) (lit "azure_openai") (lit "endpoint");
    a ←' getitem2 (load_config f) (lit "azure_openai") (lit "api_key");
    v ←' getitem2 (load_config f) (lit "azure_openai") (lit "api_version");
    m ←' getitem2 (load_config f) (lit "azure_openai") (lit "model");
    Done (AzureOpenAIConfig.mk (getenv env "AZURE_OPENAI_ENDPOINT" e)
                               (getenv env "AZURE_OPENAI_API_KEY" a) v m).
Proof. reflexivity. Qed.

(** Whether [get_openai_config] returns or raises does not depend on the
    environment: the file's values are looked up before [os.getenv] is
    called, so a key missing from the file raises [KeyError] even when the
    environment variable is set. When it returns, the key and the base URL
    are the environment's when set and the file's otherwise, and the model
    is the file's. *)
Theorem get_openai_config_environment f env :
  (∀ env', (∃ cfg, get_openai_config f env = Done cfg)
           ↔ (∃ cfg, get_openai_config f env' = Done cfg)) ∧
  (∀ k, get_openai_config f ∅ = KeyError k →
        get_openai_config f env = KeyError k) ∧
  (∀ cfg0, get_openai_config f ∅ = Done cfg0 →
           get_openai_config f env
           = Done (OpenAIConfig.mk
                     (getenv env "OPENAI_API_KEY" (OpenAIConfig.api_key cfg0))
                     (getenv env "OPENAI_BASE_URL" (OpenAIConfig.base_url cfg0))
                     (OpenAIConfig.model cfg0))).
Proof.
  rewrite !get_openai_config_unfold. split_and!.
  - intros env'. rewrite get_openai_config_unfold.
    destruct (getitem2 _ _ (lit "api_key")); simpl;
      [|split; intros [? ?]; done..].
    destruct (getitem2 _ _ (lit "base_url")); simpl;
      [|split; intros [? ?]; done..].
    destruct (getitem2 _ _ (lit "model")); simpl;
      [|split; intros [? ?]; done..].
    split; intros _; by eexists.
  - intros k. destruct (getitem2 _ _ (lit "api_key")); simpl; [|done..].
    destruct (getitem2 _ _ (lit "base_url")); simpl; [|done..].
    destruct (getitem2 _ _ (lit "model")); simpl; done.
  - intros cfg0. destruct (getitem2 _ _ (lit "api_key")); simpl; [|done..].
    destruct (getitem2 _ _ (lit "base_url")); simpl; [|done..].
    destruct (getitem2 _ _ (lit "model")); simpl; [|done..].
    by intros [= <-].
Qed.

Lemma get_openai_config_environment_witness :
  get_openai_config
    (Stored (JDict [(lit "openai",
                     JDict [(lit "base_url", JStr (lit "http://localhost"));
                            (lit "model", JStr (lit "gpt-4"))])]))
    {["OPENAI_API_KEY" := lit "sk-123"]}
  = KeyError (lit "api_key").
Proof.
  apply (proj1 (proj2 (get_openai_config_environment _ _))).
  vm_compute. reflexivity.
Defined.

(** ** Updating the configuration *)

Lemma py_bind_done {A B} (x : py A) (f : A → py B) b :
  py_bind x f = Done b → ∃ a, x = Done a ∧ f a = Done b.
Proof. destruct x; simpl; [by eexists|done..]. Qed.

Ltac keys_differ :=
  let H := fresh in intros H; injection H; intros; discriminate.

(** [update_config] on a configuration whose section is complete: the file
    is written, the fields given are then read back, the fields not given
    and the other section read as before, and [endpoint] (for 'openai') or
    [base_url] (for 'azure_openai') is ignored. A missing or unreadable
    file counts as the default configuration, so it is created or
    replaced. *)
Theorem update_config_round_trip f api_key endpoint base_url model :
  (∀ cfg0,
     get_openai_config f ∅ = Done cfg0 →
     ∃ f',
       update_config (lit "openai") api_key endpoint base_url model None f
       = Done f' ∧
       get_openai_config f' ∅
       = Done (OpenAIConfig.mk
                 (given api_key (OpenAIConfig.api_key cfg0))
                 (given base_url (OpenAIConfig.base_url cfg0))
                 (given model (OpenAIConfig.model cfg0))) ∧
       ∀ env, get_azure_openai_config f' env = get_azure_openai_config f env) ∧
  (∀ cfg0,
     get_azure_openai_config f ∅ = Done cfg0 →
     ∃ f',
       update_config (lit "azure_openai") api_key endpoint base_url model
                     None f
       = Done f' ∧
       get_azure_openai_config f' ∅
       = Done (AzureOpenAIConfig.mk
                 (given endpoint (AzureOpenAIConfig.endpoint cfg0))
                 (given api_key (AzureOpenAIConfig.api_key cfg0))
                 (AzureOpenAIConfig.api_version cfg0)
                 (given model (AzureOpenAIConfig.model cfg0))) ∧
       ∀ env, get_openai_config f' env = get_openai_config f env).
Proof.
  split.
  - intros cfg0. rewrite get_openai_config_unfold.
    intros (a & Ha & H)%py_bind_done. apply py_bind_done in H as (b & Hb & H).
    apply py_bind_done in H as (m & Hm & [= <-]). simpl.
    destruct (set_if_given_spec (lit "openai") (lit "api_key") api_key
                (load_config f) a Ha) as (c1 & E1 & G1 & O1).
    destruct (set_if_given_spec (lit "openai") (lit "base_url") base_url c1 b)
      as (c2 & E2 & G2 & O2); [rewrite O1; [done|keys_differ]|].
    destruct (set_if_given_spec (lit "openai") (lit "model") model c2 m)
      as (c3 & E3 & G3 & O3);
      [rewrite O2, O1; [done|keys_differ..]|].
    exists (Stored c3). split_and!.
    + unfold update_config. rewrite decide_True by done.
      rewrite E1. simpl. rewrite E2. simpl. by rewrite E3.
    + rewrite get_openai_config_unfold. simpl load_config.
      rewrite O3, O2, G1 by keys_differ. simpl.
      rewrite O3, G2 by keys_differ. simpl. by rewrite G3.
    + intros env. rewrite !get_azure_openai_config_unfold. simpl load_config.
      by rewrite !O3, !O2, !O1 by keys_differ.
  - intros cfg0. rewrite get_azure_openai_config_unfold.
    intros (e & He & H)%py_bind_done. apply py_bind_done in H as (a & Ha & H).
    apply py_bind_done in H as (v & Hv & H).
    apply py_bind_done in H as (m & Hm & [= <-]). simpl.
    destruct (set_if_given_spec (lit "azure_openai") (lit "api_key") api_key
                (load_config f) a Ha) as (c1 & E1 & G1 & O1).
    destruct (set_if_given_spec (lit "azure_openai") (lit "endpoint") endpoint
                c1 e) as (c2 & E2 & G2 & O2);
      [rewrite O1; [done|keys_differ]|].
    destruct (set_if_given_spec (lit "azure_openai") (lit "model") model c2 m)
      as (c3 & E3 & G3 & O3);
      [rewrite O2, O1; [done|keys_differ..]|].
    exists (Stored c3). split_and!.
    + unfold update_config. rewrite decide_False by keys_differ.
      rewrite decide_True by done.
      rewrite E1. simpl. rewrite E2. simpl. by rewrite E3.
    + rewrite get_azure_openai_config_unfold. simpl load_config.
      rewrite O3, G2 by keys_differ. simpl.
      rewrite O3, O2, G1 by keys_differ. simpl.
      rewrite O3, O2, O1, Hv by keys_differ. simpl. by rewrite G3.
    + intros env. rewrite !get_openai_config_unfold. simpl load_config.
      by rewrite !O3, !O2, !O1 by keys_differ.
Qed.

Lemma update_config_round_trip_witness :
  ∃ f',
    update_config (lit "openai") (Some (lit "sk-123")) None None None None
                  Unreadable = Done f' ∧
    get_openai_config f' ∅
    = Done (OpenAIConfig.mk (JStr (lit "sk-123"))
              (JStr OPENAI_DEFAULT_BASE_URL) (JStr OPENAI_DEFAULT_MODEL)).
Proof.
  destruct (proj1 (update_config_round_trip Unreadable (Some (lit "sk-123"))
                     None None None)
              (OpenAIConfig.mk (JStr []) (JStr OPENAI_DEFAULT_BASE_URL)
                               (JStr OPENAI_DEFAULT_MODEL)))
    as (f' & Hu & Hg & _); [reflexivity|].
  exists f'. split; [exact Hu|exact Hg].
Defined.

(** * app.py *)

Section AppProperties.

Variable connect : Service → BaseTranslator.

(** [get_translator] gives no client for a service type that starts with
    neither "openai" nor "azure", and for "openai" exactly when the
    section has no key or an empty one; a client it gives has
    [max_retries = 3], so that its [translate] returns a string on every
    input. *)
Theorem get_translator_client f service_type :
  (startswith (lit "openai") service_type = false →
   startswith (lit "azure") service_type = false →
   get_translator connect f service_type = Done None) ∧
  (∀ c, get_translator connect f service_type = Done (Some c) →
        max_retries c = 3%Z ∧
        ∀ text lang n, ∃ r, (translate c text lang n).1 = Some r) ∧
  (startswith (lit "openai") service_type = true →
   ∀ section,
     get_method (load_config f) (lit "openai") (JDict [])
     = Done (JDict section) →
     (get_translator connect f service_type = Done None
      ↔ json_truthy (default JNull (dict_get (lit "api_key") section))
        = false)).
Proof.
  split_and!.
  - intros H1 H2. unfold get_translator. by rewrite H1, H2.
  - intros c Hc.
    assert (max_retries c = 3%Z) as Hm.
    { unfold get_translator in Hc.
      destruct (startswith (lit "openai") service_type).
      - apply py_bind_done in Hc as (oc & _ & Hc).
        apply py_bind_done in Hc as (k & _ & Hc).
        destruct (negb (json_truthy k)); [done|].
        apply py_bind_done in Hc as (a & _ & Hc).
        apply py_bind_done in Hc as (b & _ & Hc).
        apply py_bind_done in Hc as (m & _ & Hc). by injection Hc as <-.
      - destruct (startswith (lit "azure") service_type); [|done].
        apply py_bind_done in Hc as (ac & _ & Hc).
        apply py_bind_done in Hc as (k & _ & Hc).
        apply py_bind_done in Hc as (missing & _ & Hc).
        destruct missing; [done|].
        apply py_bind_done in Hc as (a & _ & Hc).
        apply py_bind_done in Hc as (e & _ & Hc).
        apply py_bind_done in Hc as (v & _ & Hc).
        apply py_bind_done in Hc as (m & _ & Hc). by injection Hc as <-. }
    split; [done|]. intros text lang n. apply translate_some. lia.
  - intros Hs section Hsec. unfold get_translator. rewrite Hs, Hsec. simpl.
    destruct (dict_get (lit "api_key") section) as [k|] eqn:Ek; simpl.
    + destruct (json_truthy k); simpl; by split.
    + done.
Qed.



End AppProperties.

Lemma get_translator_client_witness :
  get_translator (λ _, backend_echo) NoFile (lit "openai") = Done None.
Proof.
  apply (proj2 (proj2 (get_translator_client (λ _, backend_echo) NoFile
                         (lit "openai")))
           eq_refl
           [(lit "api_key", JStr []);
            (lit "base_url", JStr OPENAI_DEFAULT_BASE_URL);
            (lit "model", JStr OPENAI_DEFAULT_MODEL)]);
    reflexivity.
Defined.



(** * translate.py: translate_file *)

(** ** Strings as lists of characters *)

Lemma string_of_list_ascii_app l1 l2 :
  string_of_list_ascii (l1 ++ l2)
  = (string_of_list_ascii l1 ++ string_of_list_ascii l2)%string.
Proof. induction l1 as [|a l1 IH]; [done|]. simpl. by rewrite IH. Qed.

Lemma list_ascii_of_string_app (s1 s2 : string) :
  list_ascii_of_string (s1 ++ s2)
  = list_ascii_of_string s1 ++ list_ascii_of_string s2.
Proof. induction s1 as [|a s1 IH]; [done|]. simpl. by rewrite IH. Qed.

Lemma length_string_of_list_ascii l :
  String.length (string_of_list_ascii l) = length l.
Proof. induction l as [|a l IH]; [done|]. simpl. by rewrite IH. Qed.

Lemma length_list_ascii_of_string (s : string) :
  length (list_ascii_of_string s) = String.length s.
Proof. induction s as [|a s IH]; [done|]. simpl. by rewrite IH. Qed.

(** ** [rfind] and [splitext] *)

Lemma rfind_from_app c i l1 l2 found :
  rfind_from c i (l1 ++ l2) found
  = rfind_from c (i + length l1) l2 (rfind_from c i l1 found).
Proof.
  revert i found. induction l1 as [|a l1 IH]; intros i found; simpl.
  - by rewrite Nat.add_0_r.
  - rewrite IH. f_equal. lia.
Qed.

Lemma rfind_from_bound c i l found :
  (found < Z.of_nat i)%Z →
  (found ≤ rfind_from c i l found < Z.of_nat (i + length l))%Z.
Proof.
  revert i found. induction l as [|a l IH]; intros i found Hf; simpl.
  - lia.
  - destruct (Ascii.eqb a c).
    + specialize (IH (S i) (Z.of_nat i)). lia.
    + specialize (IH (S i) found). lia.
Qed.

Lemma rfind_from_cons c i a l found :
  rfind_from c i (a :: l) found
  = rfind_from c (S i) l (if Ascii.eqb a c then Z.of_nat i else found).
Proof. done. Qed.

Lemma rfind_from_docx_dot i found :
  rfind_from "." i (list_ascii_of_string ".docx") found = Z.of_nat i.
Proof. reflexivity. Qed.

Lemma rfind_from_docx_sep i found :
  rfind_from "/" i (list_ascii_of_string ".docx") found = found.
Proof. reflexivity. Qed.

Lemma splitext_list_app l : (splitext_list l).1 ++ (splitext_list l).2 = l.
Proof.
  unfold splitext_list. destruct (_ <? _)%Z; [|by rewrite app_nil_r].
  destruct (existsb _ _); [apply take_drop|by rewrite app_nil_r].
Qed.

Lemma splitext_list_docx stem c :
  c ≠ "."%char → c ≠ "/"%char →
  splitext_list (stem ++ c :: list_ascii_of_string ".docx")
  = (stem ++ [c], list_ascii_of_string ".docx").
Proof.
  intros Hdot Hsep.
  assert (Ascii.eqb c "." = false) as Edot by by apply Ascii.eqb_neq.
  assert (Ascii.eqb c "/" = false) as Esep by by apply Ascii.eqb_neq.
  pose proof (rfind_from_bound "/" 0 stem (-1)) as Hb.
  assert (rfind "/" (stem ++ c :: list_ascii_of_string ".docx")
          = rfind "/" stem) as Es.
  { unfold rfind. rewrite rfind_from_app, rfind_from_cons, Esep.
    apply rfind_from_docx_sep. }
  assert (rfind "." (stem ++ c :: list_ascii_of_string ".docx")
          = Z.of_nat (S (length stem))) as Ed.
  { unfold rfind. rewrite rfind_from_app, rfind_from_cons, Edot.
    rewrite rfind_from_docx_dot. lia. }
  unfold splitext_list. rewrite Es, Ed. fold (rfind "/" stem) in Hb.
  simpl in Hb. destruct (Z.ltb_spec (rfind "/" stem) (Z.of_nat (S (length stem))));
    [|lia].
  assert (existsb (λ a, negb (Ascii.eqb a "."))
            (take (Z.to_nat (Z.of_nat (S (length stem)) - (rfind "/" stem + 1)))
               (drop (Z.to_nat (rfind "/" stem + 1))
                  (stem ++ c :: list_ascii_of_string ".docx"))) = true) as ->.
  { apply existsb_exists. exists c. split; [|by rewrite Edot].
    apply list_elem_of_In.
    apply (list_elem_of_lookup_2 _
             (length stem - Z.to_nat (rfind "/" stem + 1))).
    rewrite lookup_take_lt by lia. rewrite lookup_drop.
    replace (Z.to_nat (rfind "/" stem + 1)
             + (length stem - Z.to_nat (rfind "/" stem + 1)))
      with (length stem + 0) by lia.
    by rewrite lookup_app_r, Nat.add_0_r, Nat.sub_diag by lia. }
  rewrite Nat2Z.id.
  assert (S (length stem) = length (stem ++ [c])) as ->
    by (rewrite length_app; simpl; lia).
  assert (stem ++ c :: list_ascii_of_string ".docx"
          = (stem ++ [c]) ++ list_ascii_of_string ".docx") as ->
    by by rewrite <-app_assoc.
  by rewrite take_app_length, drop_app_length.
Qed.

(** The output path that [translate_file] makes up when none is given is
    the input path with "_translated" put before its extension: it is
    eleven characters longer than the input path, so never the input file
    itself, and for an input "….docx" whose name does not end in a dot or a
    slash before the extension it is "…_translated.docx". *)
Theorem default_output_file_name :
  (∀ input_file,
     String.length (default_output_file input_file)
     = String.length input_file + 11 ∧
     default_output_file input_file ≠ input_file) ∧
  (∀ stem c,
     c ≠ "."%char → c ≠ "/"%char →
     default_output_file (stem ++ String c ".docx")
     = (stem ++ String c "_translated.docx")%string).
Proof.
  split.
  - intros input.
    assert (String.length (default_output_file input)
            = String.length input + 11) as Hlen.
    { unfold default_output_file, splitext. cbn [fst snd].
      set (r := splitext_list (list_ascii_of_string input)).
      change "_translated"%string
        with (string_of_list_ascii (list_ascii_of_string "_translated")).
      rewrite <-!string_of_list_ascii_app, length_string_of_list_ascii.
      rewrite !length_app. simpl.
      rewrite <-length_list_ascii_of_string.
      rewrite <-(splitext_list_app (list_ascii_of_string input)).
      fold r. rewrite length_app. lia. }
    split; [done|]. intros E. rewrite E in Hlen. lia.
  - intros stem c Hdot Hsep. unfold default_output_file, splitext.
    rewrite list_ascii_of_string_app. simpl.
    rewrite (splitext_list_docx _ c) by done. cbn [fst snd].
    rewrite string_of_list_ascii_app, string_of_list_ascii_of_string.
    simpl. clear. induction stem as [|a stem IH]; [reflexivity|].
    change (String a ((stem ++ String c "") ++ "_translated" ++ ".docx")
            = String a (stem ++ String c "_translated.docx"))%string.
    by f_equal.
Qed.

Lemma default_output_file_name_witness :
  default_output_file "docs/report.docx" = "docs/report_translated.docx"%string.
Proof.
  apply (proj2 default_output_file_name "docs/repor" "t"%char); discriminate.
Defined.

(** ** The outcomes of [translate_file] *)

Section TranslateFileProperties.

Variable parse : bytes → option Element.
Variable serialize : Element → bytes.
Variable connect : Service → BaseTranslator.

Lemma translate_document_result c ft input_file output_file lang fs s :
  let r := translate_document parse serialize c ft input_file output_file
             lang fs s in
  ((1 ≤ max_retries c)%Z → r.1 ≠ Raise AttributeError) ∧
  (r.1 = Ok () → is_Some (archives r.2 !! output_file)).
Proof.
  cbv zeta. unfold translate_document. cbn [fst snd].
  unfold translate_document_body.
  destruct (archives _ !! input_file) as [z|]; [|by split].
  destruct (files _ !! document_xml) as [doc|]; [|by split].
  destruct (parse doc) as [root|]; [|by split].
  destruct (translate_tree c lang root s) as [[root' s']|e] eqn:E.
  - destruct (serialize_fails ft); [by split|].
    destruct (repack_fails ft); [by split|].
    split; [done|]. intros _. cbn [fst snd].
    destruct (exists_temp _); cbn [archives rmtree];
      rewrite lookup_insert_eq; by eexists.
  - split; [|done]. intros Hc.
    destruct (translate_tree_total c lang root s Hc) as [r Hr].
    by rewrite Hr in E.
Qed.


End TranslateFileProperties.

